(** * Cover art providers: the provider base class

    A shallow embedding of
    [src/mb_enhanced_cover_art_uploads/providers/base.ts]:
    the abstract class [CoverArtProvider] (URL cleaning, URL support test,
    identifier extraction, redirect guard, track image merging) and its
    subclass [HeadMetaPropertyProvider].

    Promises are run to completion: an [async] method is a function into
    the result type [Exn + A], a rejected promise or a thrown exception is
    [inl], a fulfilled one is [inr]. *)

From Stdlib Require Import String Ascii List Bool Arith Lia.
Import ListNotations.
Local Open Scope string_scope.

Set Implicit Arguments.

(** ** Exceptions and results *)

(** What a method of the source can throw: [Error] is the source's own
    [new Error(message)], [TypeError] is thrown by the built-in [URL]
    constructor and carries the string it rejected,
    [MissingExpectedElement] is the failure of the required-element query
    of the DOM helper, and [Rejected] is any failure of the HTTP helper. *)
Inductive Exn : Type :=
| Error (message : string)
| TypeError (input : string)
| MissingExpectedElement (selector : string)
| Rejected (reason : string).

Definition Result (A : Type) : Type := (Exn + A)%type.

Definition ret {A : Type} (a : A) : Result A := inr a.

Definition throw {A : Type} (e : Exn) : Result A := inl e.

Definition bind {A B : Type} (m : Result A) (k : A -> Result B) : Result B :=
  match m with
  | inl e => inl e
  | inr a => k a
  end.

Notation "x <- m ;; k" := (bind m (fun x => k))
  (at level 61, m at next level, right associativity).

(** ** JavaScript values used by the source *)

(** A value of type [string | undefined] is an [option string]. [!!id]:
    [undefined] and the empty string are falsy, every other string is
    truthy. *)
Definition truthy (id : option string) : bool :=
  match id with
  | None => false
  | Some s => negb (s =? EmptyString)
  end.

(** [a === b] on [string | undefined]. *)
Definition strict_eq (a b : option string) : bool :=
  match a, b with
  | None, None => true
  | Some x, Some y => x =? y
  | _, _ => false
  end.

(** [typeof id !== 'undefined']. *)
Definition is_defined {A : Type} (id : option A) : bool :=
  match id with
  | None => false
  | Some _ => true
  end.

(** [array.find(p)]: the first element satisfying [p]; on an array of
    [string | undefined] the absent result is [undefined] again. *)
Definition Array_find (p : option string -> bool) (array : list (option string))
  : option string :=
  match List.find p array with
  | Some id => id
  | None => None
  end.

(** [array.join(sep)]. *)
Definition Array_join (sep : string) (array : list string) : string :=
  String.concat sep array.

(** The components of a WHATWG [URL] object that the source reads, and
    the ones the specification names. *)
Record URL : Type := mkURL {
  href : string;
  protocol : string;
  host : string;
  pathname : string;
  search : string;
  hash : string
}.

(** The array returned by a successful [String.prototype.match] with a
    regular expression without the global flag: index 0 is the matched
    text, index [i] the [i]-th capturing group, [undefined] when the group
    did not take part in the match. *)
Record RegExpMatchArray : Type := mkMatch {
  matched : string;
  captures : list (option string)
}.

(** A regular expression without global or sticky flag is its matching
    function: [exec] is stateless and starts at the beginning of the
    string. *)
Record RegExp : Type := mkRegExp {
  exec : string -> option RegExpMatchArray
}.

(** [regex.test(s)]. *)
Definition RegExp_test (regex : RegExp) (s : string) : bool :=
  is_defined (exec regex s).

(** [s.match(regex)], [null] is [None]. *)
Definition String_match (s : string) (regex : RegExp) : option RegExpMatchArray :=
  exec regex s.

(** [m[i]], out of range is [undefined]. *)
Definition match_index (m : RegExpMatchArray) (i : nat) : option string :=
  match i with
  | 0 => Some (matched m)
  | S j => nth j (captures m) None
  end.

(** [m?.[i]]. *)
Definition opt_index (m : option RegExpMatchArray) (i : nat) : option string :=
  match m with
  | None => None
  | Some a => match_index a i
  end.

(** [RegExp | RegExp[]] with the [Array.isArray] test as the match. *)
Inductive UrlRegex : Type :=
| OneRegExp (regex : RegExp)
| RegExpArray (regexes : list RegExp).

(** ** The provider *)

(** The abstract members of [CoverArtProvider]. *)
Record CoverArtProvider : Type := mkProvider {
  supportedDomains : list string;
  favicon : string;
  name : string;
  urlRegex : UrlRegex
}.

Definition cleanUrl (url : URL) : string :=
  host url ++ pathname url.

Definition supportsUrl (this : CoverArtProvider) (url : URL) : bool :=
  match urlRegex this with
  | RegExpArray regexes =>
      existsb (fun regex => RegExp_test regex (cleanUrl url)) regexes
  | OneRegExp regex => RegExp_test regex (cleanUrl url)
  end.

Definition extractId (this : CoverArtProvider) (url : URL) : option string :=
  match urlRegex this with
  | OneRegExp regex => opt_index (String_match (cleanUrl url) regex) 1
  | RegExpArray regexes =>
      Array_find is_defined
        (map (fun regex => opt_index (String_match (cleanUrl url) regex) 1) regexes)
  end.

Definition isSafeRedirect (this : CoverArtProvider) (originalUrl redirectedUrl : URL)
  : bool :=
  let id := extractId this originalUrl in
  truthy id && strict_eq id (extractId this redirectedUrl).

(** ** Collaborators *)

(** The response of the HTTP helper, as far as [fetchPage] reads it. *)
Record XhrResponse : Type := mkResponse {
  finalUrl : string;
  responseText : string
}.

(** An [HTMLMetaElement], as far as [findImages] reads it. *)
Record HTMLMetaElement : Type := mkMeta {
  content : string
}.

(** What the source takes from its environment: the built-in [URL]
    constructor ([URL_parse] is [None] where [new URL(s)] throws), the HTTP
    helper [gmxhr] of [@lib/util/xhr], and the DOM helpers of
    [@lib/util/dom]. [qsMaybe] is the query-selector primitive: the first
    matching element, if any. *)
Class Platform : Type := mkPlatform {
  Document : Type;
  URL_parse : string -> option URL;
  gmxhr : URL -> Result XhrResponse;
  parseDOM : string -> string -> Document;
  qsMaybe : string -> Document -> option HTMLMetaElement
}.

(** [new URL(s)]. *)
Definition new_URL `{Platform} (s : string) : Result URL :=
  match URL_parse s with
  | Some url => ret url
  | None => throw (TypeError s)
  end.

(** Modelled from the spec: [qs] of [@lib/util/dom] is not under src/.
    Section 6: a query-selector primitive returns the first matching
    element or fails if none exists; section 7 names the failure
    MissingExpectedElement. *)
Definition qs `{Platform} (query : string) (element : Document) : Result HTMLMetaElement :=
  match qsMaybe query element with
  | Some elmt => ret elmt
  | None => throw (MissingExpectedElement query)
  end.

(** Modelled from the spec: [filterNonNull] of [@lib/util/array] is not
    under src/. Section 4.4: drop absent entries. *)
Fixpoint filterNonNull {A : Type} (array : list (option A)) : list A :=
  match array with
  | [] => []
  | None :: rest => filterNonNull rest
  | Some el :: rest => el :: filterNonNull rest
  end.

(** A JavaScript [Map] with string keys: the entries in insertion order,
    each key once. *)
Definition JsMap (V : Type) : Type := list (string * V).

Fixpoint Map_get {V : Type} (k : string) (map : JsMap V) : option V :=
  match map with
  | [] => None
  | (k', v) :: rest => if k' =? k then Some v else Map_get k rest
  end.

(** [map.set(k, v)]: an existing key keeps its place, a new key goes last. *)
Fixpoint Map_set {V : Type} (k : string) (v : V) (map : JsMap V) : JsMap V :=
  match map with
  | [] => [(k, v)]
  | (k', v') :: rest =>
      if k' =? k then (k', v) :: rest else (k', v') :: Map_set k v rest
  end.

(** Modelled from the spec: [groupBy] of [@lib/util/array] is not under
    src/. Sections 4.4 and 9: insertion-ordered key grouping with an ordered
    sequence of values per key. A value of a key already present is pushed
    onto that key's array. *)
Definition groupBy {T V : Type} (array : list T) (keyFn : T -> string)
  (valTransform : T -> V) : JsMap (list V) :=
  fold_left
    (fun map el =>
       let k := keyFn el in
       let v := valTransform el in
       match Map_get k map with
       | Some vs => Map_set k (vs ++ [v])%list map
       | None => Map_set k [v] map
       end)
    array [].

(** ** Cover art *)

Inductive ArtworkTypeIDs : Type :=
| Back | Booklet | Front | Liner | Medium | Obi | Other | Poster | Raw
| Spine | Sticker | Track | Tray | Watermark.

(** The numeric value of each member of the enum. *)
Definition ArtworkTypeIDs_value (t : ArtworkTypeIDs) : nat :=
  match t with
  | Back => 2 | Booklet => 3 | Front => 1 | Liner => 12 | Medium => 4
  | Obi => 5 | Other => 8 | Poster => 11 | Raw => 14 | Spine => 6
  | Sticker => 10 | Track => 7 | Tray => 9 | Watermark => 13
  end.

(** [interface CoverArt]; an optional member that is not set is [None]. *)
Record CoverArt : Type := mkCoverArt {
  ca_url : URL;
  ca_types : option (list ArtworkTypeIDs);
  ca_comment : option string;
  ca_skipMaximisation : option bool
}.

(** [interface ParsedTrackImage]. *)
Record ParsedTrackImage : Type := mkTrackImage {
  ti_url : string;
  ti_trackNumber : option string
}.

(** ** Redirect guard *)

Definition unsafe_redirect_message (this : CoverArtProvider) (resp : XhrResponse)
  : string :=
  "Refusing to extract images from " ++ name this
  ++ " provider because the original URL redirected to " ++ finalUrl resp
  ++ ", which may be a different release. If this redirected URL is correct, please retry with "
  ++ finalUrl resp ++ " directly.".

Definition fetchPage `{Platform} (this : CoverArtProvider) (url : URL) : Result string :=
  resp <- gmxhr url ;;
  if negb (finalUrl resp =? href url) then
    redirectedUrl <- new_URL (finalUrl resp) ;;
    if negb (isSafeRedirect this url redirectedUrl) then
      throw (Error (unsafe_redirect_message this resp))
    else ret (responseText resp)
  else ret (responseText resp).

(** ** Track image merging *)

Definition createTrackImageComment (trackNumbers : list (option string))
  : option string :=
  let definedTrackNumbers := filterNonNull trackNumbers in
  if (List.length definedTrackNumbers =? 0)%nat then None
  else
    let prefix :=
      if (List.length definedTrackNumbers =? 1)%nat then "Track" else "Tracks" in
    Some (prefix ++ " " ++ Array_join ", " definedTrackNumbers).

(** [map.forEach] with a callback that pushes onto [results] and may
    throw: the entries are visited in insertion order, the first exception
    ends the method. *)
Fixpoint Map_forEach_push {V R : Type} (callback : V -> string -> Result R)
  (map : JsMap V) (results : list R) : Result (list R) :=
  match map with
  | [] => ret results
  | (k, v) :: rest =>
      r <- callback v k ;;
      Map_forEach_push callback rest (results ++ [r])%list
  end.

(** The object pushed by the callback of [forEach] in [mergeTrackImages];
    its first member throws when the image URL is not a valid URL. *)
Definition track_image_result `{Platform} (trackNumbers : list (option string))
  (imgUrl : string) : Result CoverArt :=
  url <- new_URL imgUrl ;;
  ret {| ca_url := url;
         ca_types := Some [Track];
         ca_comment := createTrackImageComment trackNumbers;
         ca_skipMaximisation := None |}.

Definition mergeTrackImages `{Platform} (trackImages : list (option ParsedTrackImage))
  (mainUrl : string) : Result (list CoverArt) :=
  let newTrackImages :=
    filter (fun img => negb (ti_url img =? mainUrl)) (filterNonNull trackImages) in
  let imgUrlToTrackNumber := groupBy newTrackImages ti_url ti_trackNumber in
  Map_forEach_push track_image_result imgUrlToTrackNumber [].

(** ** HeadMetaPropertyProvider *)

Definition dquote : string := String (ascii_of_nat 34) EmptyString.

Definition og_image_selector : string :=
  "head > meta[property=" ++ dquote ++ "og:image" ++ dquote ++ "]".

Definition findImages `{Platform} (this : CoverArtProvider) (url : URL)
  : Result (list CoverArt) :=
  page <- fetchPage this url ;;
  let respDocument := parseDOM page (href url) in
  coverElmt <- qs og_image_selector respDocument ;;
  coverUrl <- new_URL (content coverElmt) ;;
  ret [ {| ca_url := coverUrl;
           ca_types := Some [Front];
           ca_comment := None;
           ca_skipMaximisation := None |} ].

(** ** Domain matcher *)

(** ASCII lower-casing, for the case-insensitive comparison of hosts. *)
Definition to_lower_ascii (c : ascii) : ascii :=
  let n := nat_of_ascii c in
  if ((65 <=? n) && (n <=? 90))%nat then ascii_of_nat (n + 32) else c.

Fixpoint to_lower (s : string) : string :=
  match s with
  | EmptyString => EmptyString
  | String c rest => String (to_lower_ascii c) (to_lower rest)
  end.

(** Whether [s] ends with [suffix]. *)
Fixpoint ends_with (s suffix : string) : bool :=
  match s with
  | EmptyString => s =? suffix
  | String _ rest => (s =? suffix) || ends_with rest suffix
  end.

(** A wildcard pattern starts with the wildcard label. *)
Definition is_wildcard (pattern : string) : bool :=
  String.prefix "*." pattern.

(** The literal suffix of a wildcard pattern: what follows the wildcard
    label and its dot. *)
Definition wildcard_suffix (pattern : string) : string :=
  match pattern with
  | String _ (String _ suffix) => suffix
  | _ => EmptyString
  end.

(** Modelled from the spec: the domain matcher is not under src/ (only the
    documentation of [supportedDomains] is). Section 4.1: a pattern without
    wildcard matches iff the host equals it, case-insensitively; a pattern
    [*.suffix] matches iff the host equals [suffix] or ends with a dot
    followed by [suffix]. *)
Definition matches (pattern host : string) : bool :=
  if is_wildcard pattern then
    let suffix := wildcard_suffix pattern in
    (host =? suffix) || ends_with host ("." ++ suffix)
  else to_lower host =? to_lower pattern.

(** Modelled from the spec: the specificity of a match is not under src/.
    Section 4.1: a pattern matches exactly, or through a wildcard with a
    literal suffix of some length. *)
Inductive Specificity : Type :=
| ExactMatch
| WildcardMatch (suffix_length : nat).

(** The specificity with which a pattern matches a host, if it does. *)
Definition specificity (pattern host : string) : option Specificity :=
  if matches pattern host then
    Some (if is_wildcard pattern
          then WildcardMatch (String.length (wildcard_suffix pattern))
          else ExactMatch)
  else None.

(** Modelled from the spec: the precedence rule of section 4.1. An exact
    match is preferred over a wildcard match; among wildcard matches the
    longer literal suffix is preferred. *)
Definition more_specific (a b : Specificity) : bool :=
  match a, b with
  | ExactMatch, WildcardMatch _ => true
  | WildcardMatch n, WildcardMatch m => (m <? n)%nat
  | _, ExactMatch => false
  end.

(** Modelled from the spec: the comparison of candidates is not under
    src/. The precedence rule of section 4.1 between two matches; a match
    is preferred over no match. *)
Definition preferred (a b : option Specificity) : bool :=
  match a, b with
  | Some x, Some y => more_specific x y
  | Some _, None => true
  | None, _ => false
  end.

(** Modelled from the spec: the best match of a provider is not under
    src/. Section 4.1: the most specific matching pattern among the
    patterns of one provider. *)
Definition best_match (domains : list string) (host : string) : option Specificity :=
  fold_left
    (fun best pattern =>
       let s := specificity pattern host in
       if preferred s best then s else best)
    domains None.

(** Modelled from the spec: provider resolution is not under src/.
    Section 4.1: the precedence rule is evaluated over the full candidate
    set, not just the first match. A provider replaces the winner so far
    only when its best match is strictly preferred. *)
Definition resolve (registry : list CoverArtProvider) (host : string)
  : option CoverArtProvider :=
  fold_left
    (fun winner provider =>
       let s := best_match (supportedDomains provider) host in
       match winner with
       | None => if is_defined s then Some provider else None
       | Some w =>
           if preferred s (best_match (supportedDomains w) host)
           then Some provider else winner
       end)
    registry None.

(** ** The claims in the words of the specification *)

(** The patterns of a provider as a list, a single pattern being the
    list of that one pattern. *)
Definition patterns (this : CoverArtProvider) : list RegExp :=
  match urlRegex this with
  | OneRegExp regex => [regex]
  | RegExpArray regexes => regexes
  end.

(** The provider configured with other patterns. *)
Definition with_urlRegex (this : CoverArtProvider) (regex : UrlRegex)
  : CoverArtProvider :=
  {| supportedDomains := supportedDomains this;
     favicon := favicon this;
     name := name this;
     urlRegex := regex |}.

(** The capturing-group match a pattern yields on a string, if any. *)
Definition yields (regex : RegExp) (s : string) : option string :=
  match exec regex s with
  | Some m => nth 0 (captures m) None
  | None => None
  end.

(** Whether [needle] occurs in [hay]: a message names a thing when the
    thing occurs in it. *)
Fixpoint is_infix (needle hay : string) : bool :=
  match hay with
  | EmptyString => String.prefix needle hay
  | String _ rest => String.prefix needle hay || is_infix needle rest
  end.

(** The values grouped under a key, in the order of encounter. *)
Definition grouped_values {T V : Type} (keyFn : T -> string) (valTransform : T -> V)
  (array : list T) (k : string) : list V :=
  map valTransform (filter (fun el => keyFn el =? k) array).

(** The map in which each of [keys], in that order, holds [f] of it. *)
Definition tabulate {V : Type} (f : string -> V) (keys : list string) : JsMap V :=
  map (fun k => (k, f k)) keys.

(** The entries [mergeTrackImages] keeps: present, and with another URL
    than the main image. *)
Definition kept_entries (trackImages : list (option ParsedTrackImage))
  (mainUrl : string) : list ParsedTrackImage :=
  filter (fun img => negb (ti_url img =? mainUrl)) (filterNonNull trackImages).

(** The distinct strings of a list, in the order of their first
    occurrence. *)
Fixpoint distinct (l : list string) : list string :=
  match l with
  | [] => []
  | x :: rest => x :: filter (fun y => negb (y =? x)) (distinct rest)
  end.

(** The track numbers known for a URL, in the order of encounter. *)
Definition known_track_numbers (imgUrl : string) (entries : list ParsedTrackImage)
  : list string :=
  filterNonNull
    (map ti_trackNumber (filter (fun img => ti_url img =? imgUrl) entries)).

(** The comment of section 4.4. *)
Definition specified_comment (trackNumbers : list string) : option string :=
  match trackNumbers with
  | [] => None
  | [n] => Some ("Track " ++ n)
  | _ => Some ("Tracks " ++ String.concat ", " trackNumbers)
  end.

(** The candidate of section 4.4 for one URL. *)
Definition track_candidate_for (entries : list ParsedTrackImage) (imgUrl : string)
  (candidate : CoverArt) : Prop :=
  ca_types candidate = Some [Track]
  /\ ca_comment candidate = specified_comment (known_track_numbers imgUrl entries)
  /\ ca_skipMaximisation candidate = None.

(** ** Concrete collaborators, patterns and providers for the examples *)

Module Fixtures.

Definition drop (n : nat) (s : string) : string :=
  String.substring n (String.length s - n) s.

Fixpoint take_while (p : ascii -> bool) (s : string) : string :=
  match s with
  | EmptyString => EmptyString
  | String c rest => if p c then String c (take_while p rest) else EmptyString
  end.

Fixpoint all_chars (p : ascii -> bool) (s : string) : bool :=
  match s with
  | EmptyString => true
  | String c rest => p c && all_chars p rest
  end.

(** The text before the first of the [stops], and the text from it on. *)
Fixpoint span_until (stops : list ascii) (s : string) : string * string :=
  match s with
  | EmptyString => (EmptyString, EmptyString)
  | String c rest =>
      if existsb (Ascii.eqb c) stops then (EmptyString, s)
      else let (a, b) := span_until stops rest in (String c a, b)
  end.

Definition in_range (lo hi : nat) (c : ascii) : bool :=
  ((lo <=? nat_of_ascii c) && (nat_of_ascii c <=? hi))%nat.

Definition is_digit (c : ascii) : bool := in_range 48 57 c.

Definition is_host_char (c : ascii) : bool :=
  in_range 97 122 c || in_range 65 90 c || is_digit c
  || Ascii.eqb c "."%char || Ascii.eqb c "-"%char.

(** A fragment of the URL constructor, enough for the examples: an
    absolute http or https URL with a plain host, no credentials and no
    port, followed by path, query and fragment as they stand. The host is
    lower-cased and an empty path is the root path. A string without a
    scheme is rejected, as the constructor without a base URL does. *)
Definition parse_url (s : string) : option URL :=
  let scheme :=
    if String.prefix "https://" s then Some "https:"
    else if String.prefix "http://" s then Some "http:"
    else None in
  match scheme with
  | None => None
  | Some proto =>
      let rest := drop (String.length proto + 2) s in
      let (h, after_host) := span_until ["/"; "?"; "#"]%char rest in
      let (p, after_path) := span_until ["?"; "#"]%char after_host in
      let (q, f) := span_until ["#"%char] after_path in
      if (h =? EmptyString) || negb (all_chars is_host_char h) then None
      else
        let path := if p =? EmptyString then "/" else p in
        Some {| href := proto ++ "//" ++ to_lower h ++ path ++ q ++ f;
                protocol := proto;
                host := to_lower h;
                pathname := path;
                search := if q =? "?" then EmptyString else q;
                hash := if f =? "#" then EmptyString else f |}
  end.

(** The regular expression that matches [literal] at the start of the
    string and captures the run of digits after it; the run may be empty
    when [allow_empty] is set (the quantifier is a star), and must not be
    (the quantifier is a plus) otherwise. *)
Definition literal_then_digits (allow_empty : bool) (literal : string) : RegExp :=
  {| exec := fun s =>
       if String.prefix literal s then
         let digits := take_while is_digit (drop (String.length literal) s) in
         if negb allow_empty && (digits =? EmptyString) then None
         else Some {| matched := literal ++ digits; captures := [Some digits] |}
       else None |}.

Definition example_provider : CoverArtProvider :=
  {| supportedDomains := ["example.com"];
     favicon := "https://example.com/favicon.ico";
     name := "Example";
     urlRegex := OneRegExp (literal_then_digits false "example.com/release/") |}.

Definition lenient_provider : CoverArtProvider :=
  {| supportedDomains := ["example.com"];
     favicon := "https://example.com/favicon.ico";
     name := "Lenient";
     urlRegex := OneRegExp (literal_then_digits true "example.com/release/") |}.

Definition two_pattern_provider : CoverArtProvider :=
  {| supportedDomains := ["*.example.com"];
     favicon := "https://example.com/favicon.ico";
     name := "Two patterns";
     urlRegex := RegExpArray [literal_then_digits false "example.com/album/";
                              literal_then_digits false "example.com/release/"] |}.

Definition subdomain_provider : CoverArtProvider :=
  {| supportedDomains := ["*.b.example.com"];
     favicon := "https://b.example.com/favicon.ico";
     name := "Subdomain";
     urlRegex := OneRegExp (literal_then_digits false "a.b.example.com/release/") |}.

Definition release_1 : URL :=
  {| href := "https://example.com/release/1";
     protocol := "https:"; host := "example.com"; pathname := "/release/1";
     search := EmptyString; hash := EmptyString |}.

Definition release_1_tracked : URL :=
  {| href := "http://example.com/release/1?utm=x#top";
     protocol := "http:"; host := "example.com"; pathname := "/release/1";
     search := "?utm=x"; hash := "#top" |}.

Definition release_index : URL :=
  {| href := "https://example.com/release/";
     protocol := "https:"; host := "example.com"; pathname := "/release/";
     search := EmptyString; hash := EmptyString |}.

Definition release_2 : URL :=
  {| href := "https://example.com/release/2";
     protocol := "https:"; host := "example.com"; pathname := "/release/2";
     search := EmptyString; hash := EmptyString |}.

(** The rest of [s] after the first occurrence of [marker]. *)
Fixpoint find_after (marker s : string) : option string :=
  if String.prefix marker s then Some (drop (String.length marker) s)
  else match s with
       | EmptyString => None
       | String _ rest => find_after marker rest
       end.

Definition og_image_marker : string :=
  "<meta property=" ++ dquote ++ "og:image" ++ dquote ++ " content=" ++ dquote.

(** A document is its markup; the only query answered is the one for the
    og:image element, read off the markup. *)
Definition scrape (query : string) (doc : string) : option HTMLMetaElement :=
  if query =? og_image_selector then
    match find_after og_image_marker doc with
    | Some rest => Some {| content := fst (span_until [ascii_of_nat 34] rest) |}
    | None => None
    end
  else None.

(** The platform in which the HTTP helper is [server]. *)
Definition platform (server : URL -> Result XhrResponse) : Platform :=
  {| Document := string;
     URL_parse := parse_url;
     gmxhr := server;
     parseDOM := fun html _ => html;
     qsMaybe := scrape |}.

(** A server that answers every request with the same final URL and
    body. *)
Definition answering (final body : string) : URL -> Result XhrResponse :=
  fun _ => ret {| finalUrl := final; responseText := body |}.

(** A server that follows no redirect. *)
Definition serving (body : string) : URL -> Result XhrResponse :=
  fun url => ret {| finalUrl := href url; responseText := body |}.

Definition page_with_cover (cover : string) : string :=
  "<html><head>" ++ og_image_marker ++ cover ++ dquote ++ "></head></html>".

Definition page_without_cover : string :=
  "<html><head><title>Release</title></head></html>".

(** The track images of the example of the specification, with image
    URLs that are URLs, an absent entry and an entry for the main image. *)
Definition main_image : string := "https://z.example/cover.jpg".

Definition track_images : list (option ParsedTrackImage) :=
  [ Some {| ti_url := "https://a.example/1.jpg"; ti_trackNumber := Some "1" |};
    None;
    Some {| ti_url := main_image; ti_trackNumber := Some "3" |};
    Some {| ti_url := "https://a.example/1.jpg"; ti_trackNumber := Some "2" |};
    Some {| ti_url := "https://b.example/1.jpg"; ti_trackNumber := None |} ].

(** The example of the specification as it is written there. *)
Definition placeholder_track_images : list (option ParsedTrackImage) :=
  [ Some {| ti_url := "a"; ti_trackNumber := Some "1" |};
    Some {| ti_url := "a"; ti_trackNumber := Some "2" |};
    Some {| ti_url := "b"; ti_trackNumber := None |} ].

Definition offline : Platform := platform (serving page_without_cover).

End Fixtures.

Import Fixtures.

(** ** The claims that the code does not meet, as they are written *)

(** A redirect is safe iff both URLs yield a present and equal
    identifier. *)
Definition isSafeRedirect_as_claimed (this : CoverArtProvider)
  (originalUrl redirectedUrl : URL) : Prop :=
  isSafeRedirect this originalUrl redirectedUrl = true
  <-> exists id, extractId this originalUrl = Some id
                 /\ extractId this redirectedUrl = Some id.

(** An unsafe redirect fails with a message naming the provider, the
    original URL and the final URL; no redirect or a safe one returns the
    body. *)
Definition fetchPage_as_claimed `{Platform} (this : CoverArtProvider) (url : URL)
  : Prop :=
  forall resp, gmxhr url = inr resp ->
    (forall final,
        finalUrl resp <> href url ->
        URL_parse (finalUrl resp) = Some final ->
        isSafeRedirect this url final = false ->
        exists message,
          fetchPage this url = inl (Error message)
          /\ is_infix (name this) message = true
          /\ is_infix (href url) message = true
          /\ is_infix (finalUrl resp) message = true)
    /\ (finalUrl resp = href url
        \/ (exists final, URL_parse (finalUrl resp) = Some final
                          /\ isSafeRedirect this url final = true) ->
        fetchPage this url = inr (responseText resp)).

(** One candidate for each distinct kept URL, in the order of first
    occurrence. *)
Definition merged_candidates `{Platform} (entries : list ParsedTrackImage)
  (candidates : list CoverArt) : Prop :=
  Forall2
    (fun imgUrl candidate =>
       URL_parse imgUrl = Some (ca_url candidate)
       /\ track_candidate_for entries imgUrl candidate)
    (distinct (map ti_url entries)) candidates.

Definition mergeTrackImages_as_claimed `{Platform}
  (trackImages : list (option ParsedTrackImage)) (mainUrl : string) : Prop :=
  exists candidates,
    mergeTrackImages trackImages mainUrl = inr candidates
    /\ merged_candidates (kept_entries trackImages mainUrl) candidates.

(** The front candidate made from the og:image element. *)
Definition front_candidate (coverUrl : URL) : CoverArt :=
  {| ca_url := coverUrl;
     ca_types := Some [Front];
     ca_comment := None;
     ca_skipMaximisation := None |}.

Definition findImages_as_claimed `{Platform} (this : CoverArtProvider) (url : URL)
  : Prop :=
  forall page, fetchPage this url = inr page ->
    match qsMaybe og_image_selector (parseDOM page (href url)) with
    | Some coverElmt =>
        exists coverUrl,
          URL_parse (content coverElmt) = Some coverUrl
          /\ findImages this url = inr [front_candidate coverUrl]
    | None => exists e, findImages this url = inl e
    end.

(** * Properties *)

(** ** Strings *)

Lemma prefix_append (s t : string) : String.prefix s (s ++ t) = true.
Proof.
  induction s as [|c s IH]; simpl.
  - destruct t; reflexivity.
  - destruct (ascii_dec c c) as [_|ne]; [exact IH | contradiction].
Qed.

Lemma is_infix_prefix (s hay : string) :
  String.prefix s hay = true -> is_infix s hay = true.
Proof.
  destruct hay; simpl; intros E; rewrite E; reflexivity.
Qed.

Lemma is_infix_skip (a s hay : string) :
  is_infix s hay = true -> is_infix s (a ++ hay) = true.
Proof.
  intros E. induction a as [|c a IH]; simpl; [exact E|].
  rewrite IH. apply orb_true_r.
Qed.

Lemma is_infix_append (a s b : string) : is_infix s (a ++ s ++ b) = true.
Proof.
  apply is_infix_skip, is_infix_prefix, prefix_append.
Qed.

(** ** URL cleaning *)

(** C7. [cleanUrl] is the host followed by the path of its argument and
    nothing else: two URLs with the same host and path, whatever their
    scheme, query string and fragment (and serialisation), have the same
    clean form. *)
Theorem cleanUrl_host_and_path :
  forall (h p : string) (href1 proto1 q1 f1 href2 proto2 q2 f2 : string),
    cleanUrl (mkURL href1 proto1 h p q1 f1) = h ++ p
    /\ cleanUrl (mkURL href1 proto1 h p q1 f1)
       = cleanUrl (mkURL href2 proto2 h p q2 f2).
Proof.
  intros. split; reflexivity.
Qed.

(** The example of the specification, through the URL parser of the
    examples. *)
Example cleanUrl_strips_query_and_fragment :
  option_map cleanUrl (parse_url "https://Example.com/path?x=1#y")
  = option_map cleanUrl (parse_url "https://Example.com/path")
  /\ option_map cleanUrl (parse_url "http://Example.com/path")
     = Some "example.com/path".
Proof. split; reflexivity. Qed.

(** ** Identifier extraction *)

Lemma yields_opt_index (regex : RegExp) (s : string) :
  opt_index (String_match s regex) 1 = yields regex s.
Proof. reflexivity. Qed.

Lemma yields_test (regex : RegExp) (s id : string) :
  yields regex s = Some id -> RegExp_test regex s = true.
Proof.
  unfold yields, RegExp_test. destruct (exec regex s); [reflexivity | discriminate].
Qed.

Lemma no_match_no_yield (regex : RegExp) (s : string) :
  exec regex s = None -> yields regex s = None.
Proof. unfold yields. intros ->. reflexivity. Qed.

(** The first defined element of the mapped array is what the first
    pattern with a defined image yields. *)
Lemma Array_find_first_defined (f : RegExp -> option string) (regexes : list RegExp)
  (id : string) :
  Array_find is_defined (map f regexes) = Some id
  <-> exists before regex after,
        regexes = (before ++ regex :: after)%list
        /\ Forall (fun r => f r = None) before
        /\ f regex = Some id.
Proof.
  unfold Array_find. induction regexes as [|r rs IH]; simpl.
  - split; [discriminate | intros (b & x & a & E & _)].
    destruct b; discriminate.
  - destruct (f r) as [x|] eqn:Fr; simpl.
    + split.
      * intros E. exists [], r, rs. repeat split; [constructor | congruence].
      * intros (b & x' & a & E & Hb & Hx). destruct b as [|r0 b]; simpl in E.
        -- injection E as -> _. congruence.
        -- injection E as <- _. inversion Hb; congruence.
    + rewrite IH. split.
      * intros (b & x & a & -> & Hb & Hx). exists (r :: b), x, a.
        repeat split; [constructor; assumption | assumption].
      * intros (b & x & a & E & Hb & Hx). destruct b as [|r0 b]; simpl in E.
        -- injection E as -> _. congruence.
        -- injection E as <- ->. inversion Hb; subst. exists b, x, a.
           repeat split; assumption.
Qed.

(** [extractId] in terms of [patterns], for both shapes of [urlRegex]. *)
Lemma extractId_patterns (this : CoverArtProvider) (url : URL) (id : string) :
  extractId this url = Some id
  <-> exists before regex after,
        patterns this = (before ++ regex :: after)%list
        /\ Forall (fun r => yields r (cleanUrl url) = None) before
        /\ yields regex (cleanUrl url) = Some id.
Proof.
  unfold extractId, patterns. destruct (urlRegex this) as [regex|regexes].
  - rewrite yields_opt_index. split.
    + intros E. exists [], regex, []. repeat split; [constructor | exact E].
    + intros (b & x & a & E & _ & Hx). destruct b as [|r0 b]; simpl in E.
      * injection E as -> _. exact Hx.
      * injection E as _ E. destruct b; discriminate.
  - apply (Array_find_first_defined (fun r => yields r (cleanUrl url))).
Qed.

(** C6. [extractId] returns the capturing-group match of the first
    pattern, in declaration order, that yields one on [cleanUrl url]: it is
    [id] exactly when some pattern yields [id] and no pattern declared
    before it yields anything; and it is absent when no pattern matches. *)
Theorem extractId_first_pattern_that_yields :
  forall (this : CoverArtProvider) (url : URL),
    (forall id,
        extractId this url = Some id
        <-> exists before regex after,
              patterns this = (before ++ regex :: after)%list
              /\ Forall (fun r => yields r (cleanUrl url) = None) before
              /\ yields regex (cleanUrl url) = Some id)
    /\ ((forall regex, In regex (patterns this) -> exec regex (cleanUrl url) = None)
        -> extractId this url = None).
Proof.
  intros this url. split; [intros id; apply extractId_patterns|].
  intros Hnone. destruct (extractId this url) as [id|] eqn:E; [|reflexivity].
  apply extractId_patterns in E. destruct E as (b & x & a & E & _ & Hx).
  rewrite (no_match_no_yield x (cleanUrl url)) in Hx; [discriminate|].
  apply Hnone. rewrite E. apply in_or_app. right. left. reflexivity.
Qed.

Lemma extractId_first_pattern_that_yields_witness :
  extractId two_pattern_provider release_1 = Some "1"
  /\ extractId two_pattern_provider release_index = None.
Proof.
  split.
  - apply (proj1 (extractId_first_pattern_that_yields two_pattern_provider release_1)).
    exists [literal_then_digits false "example.com/album/"],
           (literal_then_digits false "example.com/release/"), [].
    repeat split. constructor; [reflexivity | constructor].
  - apply (proj2 (extractId_first_pattern_that_yields two_pattern_provider release_index)).
    intros regex [<-|[<-|[]]]; reflexivity.
Defined.

(** ** URL support *)

Lemma supportsUrl_patterns (this : CoverArtProvider) (url : URL) :
  supportsUrl this url = true
  <-> exists regex, In regex (patterns this)
                    /\ RegExp_test regex (cleanUrl url) = true.
Proof.
  unfold supportsUrl, patterns. destruct (urlRegex this) as [regex|regexes].
  - split.
    + intros E. exists regex. split; [left; reflexivity | exact E].
    + intros (r & [<-|[]] & E). exact E.
  - apply existsb_exists.
Qed.

(** C9. [supportsUrl] is true exactly when [cleanUrl url] matches at
    least one of the provider's patterns, and a provider configured with
    the single pattern [regex] supports the same URLs and extracts the same
    identifiers as the one configured with the one-element list of
    [regex]. *)
Theorem supportsUrl_any_of_the_patterns :
  forall (this : CoverArtProvider) (url : URL),
    (supportsUrl this url = true
     <-> exists regex, In regex (patterns this)
                       /\ RegExp_test regex (cleanUrl url) = true)
    /\ (forall regex,
           supportsUrl (with_urlRegex this (OneRegExp regex)) url
           = supportsUrl (with_urlRegex this (RegExpArray [regex])) url
           /\ extractId (with_urlRegex this (OneRegExp regex)) url
              = extractId (with_urlRegex this (RegExpArray [regex])) url).
Proof.
  intros this url. split; [apply supportsUrl_patterns|].
  intros regex. split.
  - unfold supportsUrl; simpl. rewrite orb_false_r. reflexivity.
  - unfold extractId, Array_find; simpl.
    destruct (opt_index (String_match (cleanUrl url) regex) 1); reflexivity.
Qed.

(** C10. A URL from which an identifier can be extracted is a supported
    URL. *)
Theorem extractId_present_supportsUrl :
  forall (this : CoverArtProvider) (url : URL) (id : string),
    extractId this url = Some id -> supportsUrl this url = true.
Proof.
  intros this url id E. apply extractId_patterns in E.
  destruct E as (b & regex & a & E & _ & Hy).
  apply supportsUrl_patterns. exists regex. split.
  - rewrite E. apply in_or_app. right. left. reflexivity.
  - exact (yields_test regex (cleanUrl url) Hy).
Qed.

Lemma extractId_present_supportsUrl_witness :
  extractId example_provider release_1 = Some "1"
  /\ supportsUrl example_provider release_1 = true.
Proof.
  split; [reflexivity|].
  apply (extractId_present_supportsUrl example_provider release_1 (id := "1")).
  reflexivity.
Defined.

(** ** Redirect safety *)

Lemma truthy_Some (s : string) : truthy (Some s) = true <-> s <> EmptyString.
Proof.
  simpl. rewrite negb_true_iff. split.
  - intros E ->. discriminate.
  - intros N. apply String.eqb_neq. exact N.
Qed.

Lemma isSafeRedirect_true (this : CoverArtProvider) (originalUrl redirectedUrl : URL) :
  isSafeRedirect this originalUrl redirectedUrl = true
  <-> exists id, id <> EmptyString
                 /\ extractId this originalUrl = Some id
                 /\ extractId this redirectedUrl = Some id.
Proof.
  unfold isSafeRedirect. rewrite andb_true_iff. split.
  - intros [T E]. destruct (extractId this originalUrl) as [id|]; [|discriminate].
    exists id. apply truthy_Some in T.
    destruct (extractId this redirectedUrl) as [id'|]; [|discriminate].
    simpl in E. apply String.eqb_eq in E. subst. auto.
  - intros (id & N & -> & ->). split; [apply truthy_Some, N|].
    simpl. apply String.eqb_refl.
Qed.

(** C2, as written, fails where the identifier is the empty string: the
    lenient pattern captures an empty run of digits from the release index,
    the identifier is present and equal to itself, and the redirect of the
    URL to itself is not safe. *)
Lemma isSafeRedirect_empty_identifier :
  extractId lenient_provider release_index = Some EmptyString
  /\ isSafeRedirect lenient_provider release_index release_index = false
  /\ ~ isSafeRedirect_as_claimed lenient_provider release_index release_index.
Proof.
  split; [reflexivity|]. split; [reflexivity|].
  intros [_ C]. assert (false = true) as F; [|discriminate F].
  apply C. exists EmptyString. split; reflexivity.
Qed.

(** C2, amended. [isSafeRedirect] is true exactly when both URLs yield a
    present, equal and non-empty identifier; in particular the redirect of
    a URL to itself is safe when its identifier is present and not the
    empty string. *)
Theorem isSafeRedirect_same_nonempty_identifier :
  forall (this : CoverArtProvider) (originalUrl redirectedUrl : URL),
    (isSafeRedirect this originalUrl redirectedUrl = true
     <-> exists id, id <> EmptyString
                    /\ extractId this originalUrl = Some id
                    /\ extractId this redirectedUrl = Some id)
    /\ (forall id, extractId this originalUrl = Some id -> id <> EmptyString ->
                   isSafeRedirect this originalUrl originalUrl = true).
Proof.
  intros this o r. split; [apply isSafeRedirect_true|].
  intros id E N. apply isSafeRedirect_true. exists id. auto.
Qed.

Lemma isSafeRedirect_same_nonempty_identifier_witness :
  isSafeRedirect example_provider release_1 release_1_tracked = true
  /\ isSafeRedirect example_provider release_1 release_1 = true.
Proof.
  pose proof (isSafeRedirect_same_nonempty_identifier
                example_provider release_1 release_1_tracked) as [I S].
  split.
  - apply I. exists "1". repeat split. discriminate.
  - apply (S "1"); [reflexivity | discriminate].
Defined.

(** ** Redirect guard *)

Section RedirectGuard.

Context `{Platform}.
Variable this : CoverArtProvider.
Variable url : URL.
Variable resp : XhrResponse.
Hypothesis fetched : gmxhr url = inr resp.

Lemma fetchPage_no_redirect :
  finalUrl resp = href url -> fetchPage this url = inr (responseText resp).
Proof.
  intros E. unfold fetchPage. rewrite fetched. simpl.
  rewrite E, String.eqb_refl. reflexivity.
Qed.

Lemma fetchPage_redirected (final : URL) :
  finalUrl resp <> href url ->
  URL_parse (finalUrl resp) = Some final ->
  fetchPage this url
  = if isSafeRedirect this url final
    then inr (responseText resp)
    else inl (Error (unsafe_redirect_message this resp)).
Proof.
  intros N P. unfold fetchPage, new_URL. rewrite fetched. simpl.
  apply String.eqb_neq in N. rewrite N. simpl. rewrite P. simpl.
  destruct (isSafeRedirect this url final); reflexivity.
Qed.

Lemma fetchPage_invalid_final_url :
  finalUrl resp <> href url ->
  URL_parse (finalUrl resp) = None ->
  fetchPage this url = inl (TypeError (finalUrl resp)).
Proof.
  intros N P. unfold fetchPage, new_URL. rewrite fetched. simpl.
  apply String.eqb_neq in N. rewrite N. simpl. rewrite P. reflexivity.
Qed.

Lemma fetchPage_safe :
  finalUrl resp = href url
  \/ (exists final, URL_parse (finalUrl resp) = Some final
                    /\ isSafeRedirect this url final = true) ->
  fetchPage this url = inr (responseText resp).
Proof.
  intros [E | (final & P & S)]; [apply fetchPage_no_redirect, E|].
  destruct (String.eqb_spec (finalUrl resp) (href url)) as [E|N].
  - apply fetchPage_no_redirect, E.
  - rewrite (fetchPage_redirected N P), S. reflexivity.
Qed.

End RedirectGuard.

Lemma unsafe_redirect_message_names (this : CoverArtProvider) (resp : XhrResponse) :
  is_infix (name this) (unsafe_redirect_message this resp) = true
  /\ is_infix (finalUrl resp) (unsafe_redirect_message this resp) = true.
Proof.
  unfold unsafe_redirect_message. split.
  - apply is_infix_append.
  - do 2 apply is_infix_skip. apply is_infix_append.
Qed.

(** C1, as written, fails on the message: release 1 of the example
    provider redirects to release 2, the fetch fails, and the text of the
    original URL does not occur in the message. *)
Lemma fetchPage_message_omits_original_url :
  ~ @fetchPage_as_claimed
      (platform (answering "https://example.com/release/2" "<html></html>"))
      example_provider release_1.
Proof.
  intros C.
  destruct (C (mkResponse "https://example.com/release/2" "<html></html>") eq_refl)
    as [C1 _].
  destruct (C1 release_2) as (message & E & _ & O & _).
  - discriminate.
  - reflexivity.
  - reflexivity.
  - vm_compute in E. injection E as <-. vm_compute in O. discriminate O.
Qed.

(** C1, amended. When the HTTP helper reports a final URL other than the
    requested one and the redirect to it is not safe, [fetchPage] fails,
    returning no page content, with a message that names the provider and
    the final URL; when the final URL is the requested one, or the redirect
    is safe, [fetchPage] returns the response body as it is. *)
Theorem fetchPage_redirect_guard :
  forall (P : Platform) (this : CoverArtProvider) (url : URL) (resp : XhrResponse),
    gmxhr url = inr resp ->
    (forall final,
        finalUrl resp <> href url ->
        URL_parse (finalUrl resp) = Some final ->
        isSafeRedirect this url final = false ->
        fetchPage this url = inl (Error (unsafe_redirect_message this resp))
        /\ is_infix (name this) (unsafe_redirect_message this resp) = true
        /\ is_infix (finalUrl resp) (unsafe_redirect_message this resp) = true)
    /\ (finalUrl resp = href url
        \/ (exists final, URL_parse (finalUrl resp) = Some final
                          /\ isSafeRedirect this url final = true) ->
        fetchPage this url = inr (responseText resp)).
Proof.
  intros P this url resp F. split.
  - intros final N Pf U. split; [|apply unsafe_redirect_message_names].
    rewrite (@fetchPage_redirected P this url resp F final N Pf), U. reflexivity.
  - apply (@fetchPage_safe P this url resp F).
Qed.

Lemma fetchPage_redirect_guard_witness :
  @fetchPage (platform (answering "https://example.com/release/2" "<html></html>"))
     example_provider release_1
  = inl (Error (unsafe_redirect_message example_provider
                  (mkResponse "https://example.com/release/2" "<html></html>")))
  /\ @fetchPage (platform (answering "http://example.com/release/1?utm=x#top" "<html></html>"))
       example_provider release_1
     = inr "<html></html>".
Proof.
  split.
  - apply (proj1 (fetchPage_redirect_guard
                    (platform (answering "https://example.com/release/2" "<html></html>"))
                    example_provider release_1 eq_refl) release_2);
      [discriminate | reflexivity | reflexivity].
  - apply (proj2 (fetchPage_redirect_guard
                    (platform (answering "http://example.com/release/1?utm=x#top" "<html></html>"))
                    example_provider release_1 eq_refl)).
    right. exists release_1_tracked. split; reflexivity.
Defined.

(** ** Track image merging *)

(** *** The order-preserving map *)

Section Tabulate.

Variable V : Type.

Lemma Map_get_tabulate (f : string -> V) (keys : list string) (k : string) :
  Map_get k (tabulate f keys) = if in_dec string_dec k keys then Some (f k) else None.
Proof.
  induction keys as [|k' keys IH]; simpl; [reflexivity|].
  destruct (String.eqb_spec k' k) as [->|N].
  - destruct (string_dec k k); [|contradiction].
    destruct (in_dec string_dec k keys); reflexivity.
  - rewrite IH. destruct (string_dec k' k); [contradiction|].
    destruct (in_dec string_dec k keys); reflexivity.
Qed.

Lemma Map_set_tabulate_new (f : string -> V) (keys : list string) (k : string)
  (v : V) :
  ~ In k keys ->
  Map_set k v (tabulate f keys) = (tabulate f keys ++ [(k, v)])%list.
Proof.
  induction keys as [|k' keys IH]; simpl; intros N; [reflexivity|].
  destruct (String.eqb_spec k' k) as [->|_]; [tauto|].
  rewrite IH; tauto.
Qed.

Lemma tabulate_ext (f g : string -> V) (keys : list string) :
  (forall k, In k keys -> f k = g k) -> tabulate f keys = tabulate g keys.
Proof.
  intros E. apply map_ext_in. intros k I. rewrite E; trivial.
Qed.

Lemma Map_set_tabulate_old (f g : string -> V) (keys : list string) (k : string) :
  NoDup keys -> In k keys ->
  (forall k', k' <> k -> g k' = f k') ->
  Map_set k (g k) (tabulate f keys) = tabulate g keys.
Proof.
  intros ND I G. induction keys as [|k' keys IH]; simpl; [contradiction|].
  inversion ND as [|? ? NI ND']; subst.
  destruct (String.eqb_spec k' k) as [->|N].
  - f_equal. apply tabulate_ext. intros k' I'. symmetry. apply G.
    intros ->. contradiction.
  - rewrite (G k' N). f_equal. apply IH; [exact ND'|].
    destruct I; [contradiction | assumption].
Qed.

End Tabulate.

(** *** Distinct keys *)

Lemma distinct_In (l : list string) (x : string) : In x (distinct l) <-> In x l.
Proof.
  induction l as [|y l IH]; simpl; [tauto|].
  rewrite filter_In, IH, negb_true_iff, String.eqb_neq.
  destruct (string_dec y x) as [->|N]; [tauto|].
  split; [tauto|]. intros [E|I]; [tauto|]. right. split; [exact I|].
  intros ->. contradiction.
Qed.

Lemma distinct_NoDup (l : list string) : NoDup (distinct l).
Proof.
  induction l as [|y l IH]; simpl; constructor.
  - rewrite filter_In, String.eqb_refl. simpl. intros [_ F]. discriminate.
  - apply NoDup_filter, IH.
Qed.

Lemma distinct_snoc (l : list string) (x : string) :
  distinct (l ++ [x])
  = if in_dec string_dec x l then distinct l else (distinct l ++ [x])%list.
Proof.
  induction l as [|y l IH]; simpl; [reflexivity|].
  rewrite IH. destruct (string_dec y x) as [->|N].
  - destruct (in_dec string_dec x l); [reflexivity|].
    rewrite filter_app. simpl. rewrite String.eqb_refl. simpl.
    rewrite app_nil_r. reflexivity.
  - destruct (in_dec string_dec x l); [reflexivity|].
    rewrite filter_app. simpl.
    apply not_eq_sym, String.eqb_neq in N. rewrite N. reflexivity.
Qed.

Lemma grouped_values_absent (T V : Type) (keyFn : T -> string)
  (valTransform : T -> V) (array : list T) (k : string) :
  ~ In k (map keyFn array) -> grouped_values keyFn valTransform array k = [].
Proof.
  unfold grouped_values. induction array as [|el array IH]; simpl; [reflexivity|].
  intros N. destruct (String.eqb_spec (keyFn el) k) as [E|_]; [tauto|].
  apply IH. tauto.
Qed.

(** [groupBy] holds, for each distinct key in the order of first
    occurrence, the values of the elements with that key in the order of
    encounter. *)
Lemma groupBy_tabulate (T V : Type) (keyFn : T -> string) (valTransform : T -> V)
  (array : list T) :
  groupBy array keyFn valTransform
  = tabulate (grouped_values keyFn valTransform array) (distinct (map keyFn array)).
Proof.
  unfold groupBy. induction array as [|el array IH] using rev_ind; [reflexivity|].
  rewrite fold_left_app. simpl. rewrite IH. clear IH.
  rewrite Map_get_tabulate, map_app. simpl. rewrite distinct_snoc.
  assert (forall k, grouped_values keyFn valTransform (array ++ [el]) k
                    = (grouped_values keyFn valTransform array k
                       ++ if keyFn el =? k then [valTransform el] else [])%list) as G.
  { intros k. unfold grouped_values. rewrite filter_app, map_app. simpl.
    destruct (keyFn el =? k); reflexivity. }
  destruct (in_dec string_dec (keyFn el) (distinct (map keyFn array))) as [I|N].
  - destruct (in_dec string_dec (keyFn el) (map keyFn array)) as [_|N'];
      [|exfalso; apply N', (proj1 (distinct_In _ _)), I].
    replace (grouped_values keyFn valTransform array (keyFn el)
             ++ [valTransform el])%list
      with (grouped_values keyFn valTransform (array ++ [el]) (keyFn el))
      by (rewrite G, String.eqb_refl; reflexivity).
    apply Map_set_tabulate_old; [apply distinct_NoDup | exact I|].
    intros k' Nk. rewrite G. apply not_eq_sym, String.eqb_neq in Nk.
    rewrite Nk. apply app_nil_r.
  - destruct (in_dec string_dec (keyFn el) (map keyFn array)) as [I'|_];
      [exfalso; apply N, (proj2 (distinct_In _ _)), I'|].
    rewrite Map_set_tabulate_new by exact N.
    unfold tabulate. rewrite map_app. simpl. f_equal.
    + apply map_ext_in. intros k I. rewrite G.
      destruct (String.eqb_spec (keyFn el) k) as [<-|_]; [contradiction|].
      rewrite app_nil_r. reflexivity.
    + rewrite G, String.eqb_refl, grouped_values_absent; [reflexivity|].
      rewrite <- distinct_In. exact N.
Qed.

(** *** The loop over the map *)

Section ForEach.

Variables V R : Type.
Variable callback : V -> string -> Result R.

Lemma Map_forEach_push_inr (map : JsMap V) (results res : list R) :
  Map_forEach_push callback map results = inr res
  <-> exists pushed,
        res = (results ++ pushed)%list
        /\ Forall2 (fun kv r => callback (snd kv) (fst kv) = inr r) map pushed.
Proof.
  revert results. induction map as [|[k v] map IH]; intros results; simpl.
  - split.
    + intros E. injection E as <-. exists []. rewrite app_nil_r. split; constructor.
    + intros (pushed & -> & F). inversion F. rewrite app_nil_r. reflexivity.
  - destruct (callback v k) as [e|r] eqn:C; simpl.
    + split; [discriminate|]. intros (pushed & _ & F). inversion F; subst.
      simpl in *. congruence.
    + rewrite IH. split.
      * intros (pushed & -> & F). exists (r :: pushed). rewrite <- app_assoc.
        split; [reflexivity|]. constructor; assumption.
      * intros (pushed & -> & F). inversion F as [|? r' ? pushed' C' F']; subst.
        simpl in C'. assert (r' = r) as -> by congruence.
        exists pushed'. rewrite <- app_assoc. split; [reflexivity | assumption].
Qed.

Lemma Map_forEach_push_inl (map : JsMap V) (results : list R) (e : Exn) :
  Map_forEach_push callback map results = inl e ->
  exists kv, In kv map /\ callback (snd kv) (fst kv) = inl e.
Proof.
  revert results. induction map as [|[k v] map IH]; intros results; simpl.
  - discriminate.
  - destruct (callback v k) as [e'|r] eqn:C; simpl.
    + intros E. injection E as ->. exists (k, v). split; [left; reflexivity | exact C].
    + intros E. destruct (IH _ E) as (kv & I & C'). exists kv. split; [right|]; assumption.
Qed.

End ForEach.

Lemma Forall2_tabulate (V R : Type) (P : string * V -> R -> Prop) (f : string -> V)
  (keys : list string) (rs : list R) :
  Forall2 P (tabulate f keys) rs <-> Forall2 (fun k r => P (k, f k) r) keys rs.
Proof.
  revert rs. induction keys as [|k keys IH]; intros rs; simpl.
  - split; intros F; inversion F; constructor.
  - split; intros F; inversion F; subst; constructor; try assumption; apply IH; assumption.
Qed.

Lemma Forall2_Forall_r (A B : Type) (P : A -> B -> Prop) (Q : B -> Prop)
  (l : list A) (l' : list B) :
  Forall2 P l l' -> (forall a b, In a l -> P a b -> Q b) -> Forall Q l'.
Proof.
  induction 1 as [|a b l l' Pab _ IH]; intros H; constructor.
  - apply (H a b); [left; reflexivity | exact Pab].
  - apply IH. intros a' b' I. apply H. right. exact I.
Qed.

Lemma In_filterNonNull (A : Type) (array : list (option A)) (el : A) :
  In el (filterNonNull array) <-> In (Some el) array.
Proof.
  induction array as [|[x|] array IH]; simpl.
  - tauto.
  - rewrite IH. split; intros [E|I]; auto; left; congruence.
  - rewrite IH. split; [auto|]. intros [E|I]; [discriminate | exact I].
Qed.

Lemma filterNonNull_map_Some (A : Type) (array : list A) :
  filterNonNull (map Some array) = array.
Proof.
  induction array as [|x array IH]; simpl; [|rewrite IH]; reflexivity.
Qed.

Lemma filter_idempotent (A : Type) (p : A -> bool) (l : list A) :
  filter p (filter p l) = filter p l.
Proof.
  induction l as [|x l IH]; simpl; [reflexivity|].
  destruct (p x) eqn:E; simpl; [rewrite E, IH|]; auto.
Qed.

(** *** The comment *)

Lemma createTrackImageComment_specified (trackNumbers : list (option string)) :
  createTrackImageComment trackNumbers
  = specified_comment (filterNonNull trackNumbers).
Proof.
  unfold createTrackImageComment.
  destruct (filterNonNull trackNumbers) as [|n [|m rest]]; reflexivity.
Qed.

(** *** The merge *)

Lemma Forall2_In_l (A B : Type) (P : A -> B -> Prop) (l : list A) (l' : list B)
  (a : A) :
  Forall2 P l l' -> In a l -> exists b, In b l' /\ P a b.
Proof.
  induction 1 as [|x y l l' Pxy _ IH]; simpl; [contradiction|].
  intros [<-|I].
  - exists y. auto.
  - destruct (IH I) as (b & Ib & Pb). exists b. auto.
Qed.

Section Merge.

Context `{Platform}.

Lemma track_image_result_inr (trackNumbers : list (option string)) (imgUrl : string)
  (candidate : CoverArt) :
  track_image_result trackNumbers imgUrl = inr candidate
  <-> URL_parse imgUrl = Some (ca_url candidate)
      /\ ca_types candidate = Some [Track]
      /\ ca_comment candidate = createTrackImageComment trackNumbers
      /\ ca_skipMaximisation candidate = None.
Proof.
  unfold track_image_result, new_URL. destruct (URL_parse imgUrl) as [url|]; simpl.
  - split.
    + intros E. injection E as <-. simpl. auto.
    + destruct candidate as [u t c s]; simpl. intros (E & -> & -> & ->).
      injection E as ->. reflexivity.
  - split; [discriminate | intros [E _]; discriminate].
Qed.

Lemma track_image_result_inl (trackNumbers : list (option string)) (imgUrl : string)
  (e : Exn) :
  track_image_result trackNumbers imgUrl = inl e ->
  URL_parse imgUrl = None /\ e = TypeError imgUrl.
Proof.
  unfold track_image_result, new_URL. destruct (URL_parse imgUrl) as [url|]; simpl.
  - discriminate.
  - intros E. injection E as <-. auto.
Qed.

Lemma mergeTrackImages_tabulate (trackImages : list (option ParsedTrackImage))
  (mainUrl : string) :
  mergeTrackImages trackImages mainUrl
  = Map_forEach_push track_image_result
      (tabulate (grouped_values ti_url ti_trackNumber (kept_entries trackImages mainUrl))
         (distinct (map ti_url (kept_entries trackImages mainUrl))))
      [].
Proof.
  unfold mergeTrackImages. rewrite groupBy_tabulate. reflexivity.
Qed.

(** What [mergeTrackImages] returns, when it returns. *)
Lemma mergeTrackImages_inr (trackImages : list (option ParsedTrackImage))
  (mainUrl : string) (candidates : list CoverArt) :
  mergeTrackImages trackImages mainUrl = inr candidates
  <-> merged_candidates (kept_entries trackImages mainUrl) candidates.
Proof.
  rewrite mergeTrackImages_tabulate, Map_forEach_push_inr.
  unfold merged_candidates. split.
  - intros (pushed & -> & F). simpl. apply Forall2_tabulate in F.
    revert F. apply Forall2_impl. intros k c E. simpl in E.
    apply track_image_result_inr in E. destruct E as (U & Ty & C & S).
    split; [exact U|]. repeat split; [exact Ty | | exact S].
    rewrite C. apply createTrackImageComment_specified.
  - intros F. exists candidates. split; [reflexivity|].
    apply Forall2_tabulate. revert F. apply Forall2_impl.
    intros k c (U & Ty & C & S). simpl. apply track_image_result_inr.
    repeat split; try assumption.
    rewrite C. symmetry. apply createTrackImageComment_specified.
Qed.

(** How [mergeTrackImages] fails, when it fails. *)
Lemma mergeTrackImages_inl (trackImages : list (option ParsedTrackImage))
  (mainUrl : string) (e : Exn) :
  mergeTrackImages trackImages mainUrl = inl e ->
  exists imgUrl,
    In imgUrl (map ti_url (kept_entries trackImages mainUrl))
    /\ URL_parse imgUrl = None /\ e = TypeError imgUrl.
Proof.
  rewrite mergeTrackImages_tabulate. intros E.
  apply Map_forEach_push_inl in E. destruct E as ([k v] & I & E).
  apply track_image_result_inl in E. exists k. split; [|exact E].
  apply in_map_iff in I. destruct I as (k' & Ek & I). injection Ek as -> _.
  apply distinct_In, I.
Qed.

Lemma kept_entries_In (trackImages : list (option ParsedTrackImage))
  (mainUrl : string) (img : ParsedTrackImage) :
  In img (kept_entries trackImages mainUrl)
  <-> In (Some img) trackImages /\ ti_url img <> mainUrl.
Proof.
  unfold kept_entries.
  rewrite filter_In, In_filterNonNull, negb_true_iff, String.eqb_neq. tauto.
Qed.

Lemma kept_entries_kept (trackImages : list (option ParsedTrackImage))
  (mainUrl : string) :
  kept_entries (map Some (kept_entries trackImages mainUrl)) mainUrl
  = kept_entries trackImages mainUrl.
Proof.
  unfold kept_entries at 1. rewrite filterNonNull_map_Some.
  unfold kept_entries. apply filter_idempotent.
Qed.

Lemma kept_entries_all_dropped (trackImages : list (option ParsedTrackImage))
  (mainUrl : string) :
  Forall (fun entry => match entry with
                       | None => True
                       | Some img => ti_url img = mainUrl
                       end) trackImages ->
  kept_entries trackImages mainUrl = [].
Proof.
  unfold kept_entries. induction 1 as [|[img|] rest E _ IH]; simpl; trivial.
  rewrite E, String.eqb_refl. exact IH.
Qed.

End Merge.

(** C4, as written, fails where an image URL is not a valid URL: on the
    example of the specification itself the URL constructor throws on the
    first image URL and no candidate is produced. *)
Lemma mergeTrackImages_invalid_image_url :
  @mergeTrackImages offline placeholder_track_images "z" = inl (TypeError "a")
  /\ ~ @mergeTrackImages_as_claimed offline placeholder_track_images "z".
Proof.
  split; [reflexivity|]. intros (candidates & E & _). discriminate E.
Qed.

(** C4, amended. When every distinct kept image URL is a valid URL,
    [mergeTrackImages] returns, for the distinct URLs of the kept entries
    (present, and other than the main image URL) in the order of first
    occurrence, exactly one candidate each: its URL is that URL, its only
    type is the track type, and its comment is absent when no track number
    is known for the URL, the word Track and the number when one is known,
    and the word Tracks and the numbers, joined by a comma and a space in
    the order of encounter, when several are. When some kept image URL is
    not a valid URL, the call throws and returns no candidate. *)
Theorem mergeTrackImages_one_candidate_per_url :
  forall (P : Platform) (trackImages : list (option ParsedTrackImage))
         (mainUrl : string),
    (Forall (fun imgUrl => URL_parse imgUrl <> None)
            (distinct (map ti_url (kept_entries trackImages mainUrl)))
     -> mergeTrackImages_as_claimed trackImages mainUrl)
    /\ (forall imgUrl,
           In imgUrl (map ti_url (kept_entries trackImages mainUrl)) ->
           URL_parse imgUrl = None ->
           exists invalid,
             In invalid (map ti_url (kept_entries trackImages mainUrl))
             /\ URL_parse invalid = None
             /\ mergeTrackImages trackImages mainUrl = inl (TypeError invalid)).
Proof.
  intros P trackImages mainUrl. split.
  - intros Valid. unfold mergeTrackImages_as_claimed.
    destruct (mergeTrackImages trackImages mainUrl) as [e|candidates] eqn:E.
    + apply mergeTrackImages_inl in E. destruct E as (k & I & N & _).
      rewrite Forall_forall in Valid. apply distinct_In in I.
      destruct (Valid k I N).
    + exists candidates. split; [reflexivity|]. apply mergeTrackImages_inr, E.
  - intros imgUrl I N.
    destruct (mergeTrackImages trackImages mainUrl) as [e|candidates] eqn:E.
    + apply mergeTrackImages_inl in E. destruct E as (k & Ik & Nk & ->).
      exists k. auto.
    + apply mergeTrackImages_inr in E. apply distinct_In in I.
      unfold merged_candidates in E.
      destruct (@Forall2_In_l _ _ _ _ _ _ E I) as (c & _ & U & _). congruence.
Qed.

Lemma mergeTrackImages_one_candidate_per_url_witness :
  @mergeTrackImages_as_claimed offline track_images main_image
  /\ exists invalid,
       In invalid (map ti_url (kept_entries placeholder_track_images "z"))
       /\ @URL_parse offline invalid = None
       /\ @mergeTrackImages offline placeholder_track_images "z"
          = inl (TypeError invalid).
Proof.
  split.
  - apply (proj1 (mergeTrackImages_one_candidate_per_url offline track_images main_image)).
    repeat constructor; discriminate.
  - apply (proj2 (mergeTrackImages_one_candidate_per_url offline
                    placeholder_track_images "z") "b").
    + simpl. auto.
    + reflexivity.
Defined.

(** The example of the specification with image URLs that are URLs. *)
Example mergeTrackImages_example :
  option_map (map (fun c => (href (ca_url c), ca_types c, ca_comment c)))
    (match @mergeTrackImages offline track_images main_image with
     | inr candidates => Some candidates
     | inl _ => None
     end)
  = Some [ ("https://a.example/1.jpg", Some [Track], Some "Tracks 1, 2");
           ("https://b.example/1.jpg", Some [Track], None) ].
Proof. reflexivity. Qed.

(** C5. Every candidate that [mergeTrackImages] returns is the candidate
    of a present entry whose URL is not the main image URL; the absent
    entries and the entries of the main image URL do not change the result;
    and an input of such entries only yields the empty result. *)
Theorem mergeTrackImages_drops_absent_and_main :
  forall (P : Platform) (trackImages : list (option ParsedTrackImage))
         (mainUrl : string),
    (forall candidates,
        mergeTrackImages trackImages mainUrl = inr candidates ->
        Forall (fun candidate =>
                  exists img,
                    In (Some img) trackImages
                    /\ ti_url img <> mainUrl
                    /\ URL_parse (ti_url img) = Some (ca_url candidate))
               candidates)
    /\ mergeTrackImages trackImages mainUrl
       = mergeTrackImages (map Some (kept_entries trackImages mainUrl)) mainUrl
    /\ (Forall (fun entry => match entry with
                             | None => True
                             | Some img => ti_url img = mainUrl
                             end) trackImages
        -> mergeTrackImages trackImages mainUrl = inr []).
Proof.
  intros P trackImages mainUrl. split; [|split].
  - intros candidates E. apply mergeTrackImages_inr in E.
    unfold merged_candidates in E.
    apply (@Forall2_Forall_r _ _ _ _ _ _ E). intros k c I (U & _).
    apply distinct_In, in_map_iff in I. destruct I as (img & <- & I).
    apply kept_entries_In in I. exists img. tauto.
  - rewrite !mergeTrackImages_tabulate, kept_entries_kept. reflexivity.
  - intros Dropped. rewrite mergeTrackImages_tabulate.
    rewrite (@kept_entries_all_dropped trackImages mainUrl Dropped). reflexivity.
Qed.

Lemma mergeTrackImages_drops_absent_and_main_witness :
  @mergeTrackImages offline
     [None; Some {| ti_url := "z"; ti_trackNumber := Some "1" |}] "z"
  = inr [].
Proof.
  apply (proj2 (proj2 (mergeTrackImages_drops_absent_and_main offline
                         [None; Some {| ti_url := "z"; ti_trackNumber := Some "1" |}]
                         "z"))).
  repeat constructor.
Defined.

(** ** The og:image provider *)

Section FindImages.

Context `{Platform}.
Variable this : CoverArtProvider.
Variable url : URL.

Lemma findImages_not_fetched (e : Exn) :
  fetchPage this url = inl e -> findImages this url = inl e.
Proof.
  intros E. unfold findImages. rewrite E. reflexivity.
Qed.

Lemma findImages_fetched (page : string) :
  fetchPage this url = inr page ->
  findImages this url
  = match qsMaybe og_image_selector (parseDOM page (href url)) with
    | None => inl (MissingExpectedElement og_image_selector)
    | Some coverElmt =>
        match URL_parse (content coverElmt) with
        | Some coverUrl => inr [front_candidate coverUrl]
        | None => inl (TypeError (content coverElmt))
        end
    end.
Proof.
  intros E. unfold findImages, qs, new_URL. rewrite E. simpl.
  destruct (qsMaybe og_image_selector (parseDOM page (href url))) as [elmt|]; simpl;
    [|reflexivity].
  destruct (URL_parse (content elmt)); reflexivity.
Qed.

End FindImages.

(** C8, as written, fails where the content attribute of the element is
    not a valid URL: the page has the og:image element, its content is a
    path, the URL constructor throws and no candidate is returned. *)
Lemma findImages_relative_og_image :
  @findImages (platform (serving (page_with_cover "/cover.jpg")))
     example_provider release_1
  = inl (TypeError "/cover.jpg")
  /\ ~ @findImages_as_claimed (platform (serving (page_with_cover "/cover.jpg")))
         example_provider release_1.
Proof.
  split; [reflexivity|]. intros C.
  specialize (C (page_with_cover "/cover.jpg") eq_refl).
  simpl in C. destruct C as (coverUrl & E & _). discriminate E.
Qed.

(** C8, amended. When the page is fetched and its document has the
    og:image element of the head, [findImages] returns exactly one
    candidate, with the URL made from the content attribute of the element,
    the front type as its only type and no comment, provided that content
    is a valid URL, and fails otherwise; when the document has no such
    element, [findImages] fails and returns no candidate. *)
Theorem findImages_og_image :
  forall (P : Platform) (this : CoverArtProvider) (url : URL) (page : string),
    fetchPage this url = inr page ->
    (forall coverElmt,
        qsMaybe og_image_selector (parseDOM page (href url)) = Some coverElmt ->
        (forall coverUrl,
            URL_parse (content coverElmt) = Some coverUrl ->
            findImages this url
            = inr [ {| ca_url := coverUrl;
                       ca_types := Some [Front];
                       ca_comment := None;
                       ca_skipMaximisation := None |} ])
        /\ (URL_parse (content coverElmt) = None ->
            findImages this url = inl (TypeError (content coverElmt))))
    /\ (qsMaybe og_image_selector (parseDOM page (href url)) = None ->
        findImages this url = inl (MissingExpectedElement og_image_selector)).
Proof.
  intros P this url page F. rewrite (@findImages_fetched P this url page F).
  split.
  - intros elmt ->. split.
    + intros coverUrl ->. reflexivity.
    + intros ->. reflexivity.
  - intros ->. reflexivity.
Qed.

Lemma findImages_og_image_witness :
  (exists coverUrl,
      href coverUrl = "https://cdn.example/cover.jpg"
      /\ @findImages (platform (serving (page_with_cover "https://cdn.example/cover.jpg")))
           example_provider release_1
         = inr [front_candidate coverUrl])
  /\ @findImages (platform (serving page_without_cover)) example_provider release_1
     = inl (MissingExpectedElement og_image_selector).
Proof.
  split.
  - eexists. split.
    2: { apply (proj1 (proj1 (findImages_og_image
                   (platform (serving (page_with_cover "https://cdn.example/cover.jpg")))
                   example_provider release_1 eq_refl)
                 (mkMeta "https://cdn.example/cover.jpg") eq_refl)).
         reflexivity. }
    reflexivity.
  - apply (proj2 (findImages_og_image (platform (serving page_without_cover))
                    example_provider release_1 eq_refl)).
    reflexivity.
Defined.

(** ** Domain matcher and provider resolution *)

(** The examples in the documentation of [supportedDomains]. *)
Example matches_documented :
  matches "*.domain.tld" "sub.domain.tld" = true
  /\ matches "*.domain.tld" "domain.tld" = true
  /\ matches "domain.tld" "domain.tld" = true
  /\ matches "domain.tld" "sub.domain.tld" = false
  /\ matches "*.domain.tld" "otherdomain.tld" = false
  /\ matches "domain.tld" "Domain.TLD" = true.
Proof. repeat split. Qed.

Lemma preferred_irreflexive (a : option Specificity) : preferred a a = false.
Proof.
  destruct a as [[|n]|]; simpl; trivial. apply Nat.ltb_irrefl.
Qed.

Lemma preferred_not_transitive (a b c : option Specificity) :
  preferred a b = false -> preferred b c = false -> preferred a c = false.
Proof.
  destruct a as [[|n]|], b as [[|m]|], c as [[|k]|]; simpl; trivial;
    try discriminate.
  rewrite !Nat.ltb_ge. lia.
Qed.

Lemma preferred_below (a b c : option Specificity) :
  preferred c a = true -> preferred c b = false -> preferred a b = false.
Proof.
  destruct a as [[|n]|], b as [[|m]|], c as [[|k]|]; simpl; trivial;
    try discriminate.
  rewrite !Nat.ltb_ge, Nat.ltb_lt. lia.
Qed.

Section Resolution.

Variable host : string.

(** The most specific match of a provider is the specificity of one of
    its patterns, and no pattern of the provider is preferred over it. *)
Lemma best_match_greatest (domains : list string) :
  (forall pattern, In pattern domains ->
                   preferred (specificity pattern host) (best_match domains host) = false)
  /\ (forall s, best_match domains host = Some s ->
                exists pattern, In pattern domains
                                /\ specificity pattern host = Some s).
Proof.
  unfold best_match.
  assert (forall b0,
    let b := fold_left
               (fun best pattern =>
                  let s := specificity pattern host in
                  if preferred s best then s else best) domains b0 in
    preferred b0 b = false
    /\ (forall pattern, In pattern domains ->
                        preferred (specificity pattern host) b = false)
    /\ (b = b0 \/ exists pattern, In pattern domains
                                  /\ specificity pattern host = b)) as G.
  { induction domains as [|p domains IH]; intros b0; simpl.
    - split; [apply preferred_irreflexive|]. split; [contradiction | auto].
    - destruct (preferred (specificity p host) b0) eqn:E.
      + destruct (IH (specificity p host)) as (I0 & I1 & I2). split; [|split].
        * exact (preferred_below _ _ _ E I0).
        * intros pattern [<-|I]; [exact I0 | apply I1, I].
        * right. destruct I2 as [Eb|(q & Iq & Eq)].
          -- exists p. split; [left; reflexivity | symmetry; exact Eb].
          -- exists q. split; [right; exact Iq | exact Eq].
      + destruct (IH b0) as (I0 & I1 & I2). split; [exact I0|]. split.
        * intros pattern [<-|I]; [|apply I1, I].
          exact (preferred_not_transitive _ _ _ E I0).
        * destruct I2 as [Eb|(q & Iq & Eq)]; [left; exact Eb|].
          right. exists q. split; [right; exact Iq | exact Eq]. }
  specialize (G None). cbv zeta in G. destruct G as (_ & G1 & G2).
  split; [exact G1|].
  intros s E. rewrite E in G2. destruct G2 as [E'|(q & Iq & Eq)]; [discriminate|].
  exists q. split; [exact Iq | exact Eq].
Qed.

Lemma preferred_defined (a b : option Specificity) :
  preferred a b = true -> a <> None.
Proof. destruct a; [discriminate | simpl; discriminate]. Qed.

(** The winner is a provider of the registry that matches the host, and no
    provider of the registry has a best match preferred over the
    winner's; there is no winner only when no provider matches. *)
Lemma resolve_greatest (registry : list CoverArtProvider) :
  (forall winner,
      resolve registry host = Some winner ->
      In winner registry
      /\ best_match (supportedDomains winner) host <> None
      /\ forall provider,
           In provider registry ->
           preferred (best_match (supportedDomains provider) host)
                     (best_match (supportedDomains winner) host) = false)
  /\ (resolve registry host = None ->
      forall provider, In provider registry ->
                       best_match (supportedDomains provider) host = None).
Proof.
  unfold resolve.
  set (best := fun provider => best_match (supportedDomains provider) host).
  set (step := fun winner provider =>
                 match winner with
                 | None => if is_defined (best provider) then Some provider else None
                 | Some w => if preferred (best provider) (best w)
                             then Some provider else winner
                 end).
  change (fold_left _ registry None) with (fold_left step registry None).
  assert (forall w0,
    (forall w, w0 = Some w -> best w <> None) ->
    (forall w, fold_left step registry w0 = Some w ->
        (w0 = Some w \/ In w registry)
        /\ best w <> None
        /\ (forall p, In p registry -> preferred (best p) (best w) = false)
        /\ (forall w', w0 = Some w' -> preferred (best w') (best w) = false))
    /\ (fold_left step registry w0 = None ->
        w0 = None /\ forall p, In p registry -> best p = None)) as G.
  { induction registry as [|p registry IH]; intros w0 D; simpl.
    - split.
      + intros w ->. split; [left; reflexivity|]. split; [apply D; reflexivity|].
        split; [contradiction|]. intros w' E. injection E as ->.
        apply preferred_irreflexive.
      + intros ->. split; [reflexivity | contradiction].
    - destruct w0 as [w0|]; simpl.
      + destruct (preferred (best p) (best w0)) eqn:E.
        * destruct (IH (Some p)) as [I1 I2].
          { intros w Ew. injection Ew as <-. exact (@preferred_defined _ _ E). }
          split.
          -- intros w Ew. destruct (I1 w Ew) as (Iw & Dw & Mw & Pw).
             split; [right; destruct Iw as [Iw|Iw]; [left; congruence | right; exact Iw]|].
             split; [exact Dw|]. split.
             ++ intros q [<-|Iq]; [apply Pw; reflexivity | apply Mw, Iq].
             ++ intros w' Ew'. injection Ew' as <-.
                exact (preferred_below _ _ _ E (Pw p eq_refl)).
          -- intros En. destruct (I2 En) as [F _]. discriminate F.
        * destruct (IH (Some w0) D) as [I1 I2]. split.
          -- intros w Ew. destruct (I1 w Ew) as (Iw & Dw & Mw & Pw).
             split; [destruct Iw as [Iw|Iw]; [left; exact Iw | right; right; exact Iw]|].
             split; [exact Dw|]. split; [|exact Pw].
             intros q [<-|Iq]; [|apply Mw, Iq].
             exact (preferred_not_transitive _ _ _ E (Pw w0 eq_refl)).
          -- intros En. destruct (I2 En) as [F _]. discriminate F.
      + destruct (best p) as [s|] eqn:E; simpl.
        * destruct (IH (Some p)) as [I1 I2].
          { intros w Ew. injection Ew as <-. rewrite E. discriminate. }
          split.
          -- intros w Ew. destruct (I1 w Ew) as (Iw & Dw & Mw & Pw).
             split; [right; destruct Iw as [Iw|Iw]; [left; congruence | right; exact Iw]|].
             split; [exact Dw|]. split; [|discriminate].
             intros q [<-|Iq]; [apply Pw; reflexivity | apply Mw, Iq].
          -- intros En. destruct (I2 En) as [F _]. discriminate F.
        * destruct (IH None) as [I1 I2]; [discriminate|]. split.
          -- intros w Ew. destruct (I1 w Ew) as (Iw & Dw & Mw & Pw).
             split; [right; destruct Iw as [Iw|Iw]; [discriminate | right; exact Iw]|].
             split; [exact Dw|]. split; [|discriminate].
             intros q [<-|Iq]; [rewrite E; reflexivity | apply Mw, Iq].
          -- intros En. destruct (I2 En) as [_ F]. split; [reflexivity|].
             intros q [<-|Iq]; [exact E | apply F, Iq]. }
  destruct (G None) as [G1 G2]; [discriminate|]. split.
  - intros w Ew. destruct (G1 w Ew) as ([F|Iw] & Dw & Mw & _); [discriminate|].
    auto.
  - intros En. apply G2, En.
Qed.

(** Resolution between two providers that both match the host. *)
Lemma resolve_pair (p1 p2 : CoverArtProvider) (s1 s2 : Specificity) :
  best_match (supportedDomains p1) host = Some s1 ->
  best_match (supportedDomains p2) host = Some s2 ->
  resolve [p1; p2] host = if more_specific s2 s1 then Some p2 else Some p1.
Proof.
  intros E1 E2. unfold resolve. simpl. rewrite E1. simpl. rewrite E2, E1. reflexivity.
Qed.

End Resolution.

(** C3. Between two providers whose patterns both match a host,
    resolution selects one winner, one of the two; the provider whose most
    specific matching pattern is an exact match wins from the one whose
    best match is a wildcard match, and between two wildcard matches the
    provider with the longer literal suffix wins, in whichever order the
    two are registered; and in any registry that holds both, the less
    specific of the two is not the winner. *)
Theorem resolve_exact_over_wildcard_longer_suffix :
  forall (host : string) (p1 p2 : CoverArtProvider) (s1 s2 : Specificity),
    best_match (supportedDomains p1) host = Some s1 ->
    best_match (supportedDomains p2) host = Some s2 ->
    (exists winner, resolve [p1; p2] host = Some winner
                    /\ (winner = p1 \/ winner = p2))
    /\ (s1 = ExactMatch -> (exists n, s2 = WildcardMatch n) ->
        resolve [p1; p2] host = Some p1 /\ resolve [p2; p1] host = Some p1)
    /\ (forall n m, s1 = WildcardMatch n -> s2 = WildcardMatch m -> (m < n)%nat ->
        resolve [p1; p2] host = Some p1 /\ resolve [p2; p1] host = Some p1)
    /\ (forall registry,
           In p1 registry -> In p2 registry -> more_specific s1 s2 = true ->
           (exists winner, resolve registry host = Some winner)
           /\ resolve registry host <> Some p2).
Proof.
  intros host p1 p2 s1 s2 E1 E2.
  pose proof (resolve_pair host p1 p2 E1 E2) as R12.
  pose proof (resolve_pair host p2 p1 E2 E1) as R21.
  split; [|split; [|split]].
  - rewrite R12. destruct (more_specific s2 s1); eauto.
  - intros -> (n & ->). simpl in R12, R21. auto.
  - intros n m -> -> L. simpl in R12, R21.
    apply Nat.ltb_lt in L. rewrite L in R21.
    assert ((n <? m)%nat = false) as L' by (apply Nat.ltb_ge; apply Nat.ltb_lt in L; lia).
    rewrite L' in R12. auto.
  - intros registry I1 I2 M.
    destruct (resolve_greatest host registry) as [G1 G2].
    destruct (resolve registry host) as [w|] eqn:R.
    + split; [eauto|]. intros Ew. injection Ew as ->.
      destruct (G1 p2 eq_refl) as (_ & _ & Mx). specialize (Mx p1 I1).
      rewrite E1, E2 in Mx. simpl in Mx. congruence.
    + specialize (G2 eq_refl p1 I1). congruence.
Qed.

Lemma resolve_exact_over_wildcard_longer_suffix_witness :
  (resolve [example_provider; two_pattern_provider] "example.com"
   = Some example_provider
   /\ resolve [two_pattern_provider; example_provider] "example.com"
      = Some example_provider)
  /\ (resolve [subdomain_provider; two_pattern_provider] "a.b.example.com"
      = Some subdomain_provider
      /\ resolve [two_pattern_provider; subdomain_provider] "a.b.example.com"
         = Some subdomain_provider).
Proof.
  split.
  - apply (proj1 (proj2 (resolve_exact_over_wildcard_longer_suffix
                           "example.com" example_provider two_pattern_provider
                           (s1 := ExactMatch) (s2 := WildcardMatch 11)
                           eq_refl eq_refl)));
      [reflexivity | exists 11; reflexivity].
  - apply (proj1 (proj2 (proj2 (resolve_exact_over_wildcard_longer_suffix
                                  "a.b.example.com" subdomain_provider
                                  two_pattern_provider
                                  (s1 := WildcardMatch 13) (s2 := WildcardMatch 11)
                                  eq_refl eq_refl))) 13 11);
      [reflexivity | reflexivity | lia].
Defined.

(** The examples in the documentation of [supportedDomains]: for the
    domain of the exact pattern, the provider with the exact pattern wins
    from the one with the wildcard pattern. *)
Example resolve_documented :
  option_map name
    (resolve [with_urlRegex (mkProvider ["*.example.xyz"] EmptyString "wildcard"
                               (RegExpArray [])) (RegExpArray []);
              with_urlRegex (mkProvider ["abc.example.xyz"] EmptyString "exact"
                               (RegExpArray [])) (RegExpArray [])]
       "abc.example.xyz")
  = Some "exact"
  /\ option_map name
       (resolve [mkProvider ["*.example.com"] EmptyString "wildcard" (RegExpArray []);
                 mkProvider ["example.com"] EmptyString "exact" (RegExpArray [])]
          "example.com")
     = Some "exact".
Proof. split; reflexivity. Qed.

(** * Further properties of the provider base class *)

(** ** Matching reads the clean URL only *)

(** X1. [supportsUrl], [extractId] and [isSafeRedirect] read a URL through
    its host and path only: two URLs with the same host and path are
    supported alike, yield the same identifier, and are interchangeable on
    either side of a redirect check. *)
Theorem matching_reads_host_and_path_only :
  forall (this : CoverArtProvider) (u1 u2 : URL),
    host u1 = host u2 -> pathname u1 = pathname u2 ->
    supportsUrl this u1 = supportsUrl this u2
    /\ extractId this u1 = extractId this u2
    /\ (forall other,
           isSafeRedirect this u1 other = isSafeRedirect this u2 other
           /\ isSafeRedirect this other u1 = isSafeRedirect this other u2).
Proof.
  intros this u1 u2 Hh Hp.
  assert (cleanUrl u1 = cleanUrl u2) as C by (unfold cleanUrl; congruence).
  assert (extractId this u1 = extractId this u2) as E
      by (unfold extractId; rewrite C; reflexivity).
  split; [unfold supportsUrl; rewrite C; reflexivity|].
  split; [exact E|].
  intros other. unfold isSafeRedirect. rewrite E. split; reflexivity.
Qed.

Lemma matching_reads_host_and_path_only_witness :
  supportsUrl example_provider release_1
  = supportsUrl example_provider release_1_tracked
  /\ extractId example_provider release_1
     = extractId example_provider release_1_tracked.
Proof.
  destruct (matching_reads_host_and_path_only example_provider
              release_1 release_1_tracked eq_refl eq_refl) as (S & E & _).
  split; [exact S | exact E].
Defined.

(** X2. Patterns appended to the pattern array of a provider take away
    nothing: a URL that was supported stays supported, and a URL that had an
    identifier keeps that identifier, since the patterns declared first are
    tried first. *)
Theorem appended_patterns_keep_support_and_identifier :
  forall (this : CoverArtProvider) (regexes more : list RegExp) (url : URL),
    urlRegex this = RegExpArray regexes ->
    (supportsUrl this url = true ->
     supportsUrl (with_urlRegex this (RegExpArray (regexes ++ more))) url = true)
    /\ (forall id,
           extractId this url = Some id ->
           extractId (with_urlRegex this (RegExpArray (regexes ++ more))) url
           = Some id).
Proof.
  intros this regexes more url U. split.
  - intros S. apply supportsUrl_patterns in S. destruct S as (r & I & T).
    apply supportsUrl_patterns. exists r. split; [|exact T].
    unfold patterns in *. rewrite U in I. simpl. apply in_or_app. left. exact I.
  - intros id E. apply extractId_patterns in E.
    destruct E as (b & r & a & Ep & Hb & Hr).
    apply extractId_patterns. exists b, r, (a ++ more)%list.
    split; [|split; assumption].
    unfold patterns in *. rewrite U in Ep. simpl. rewrite Ep.
    rewrite <- app_assoc. reflexivity.
Qed.

Lemma appended_patterns_keep_support_and_identifier_witness :
  extractId
    (with_urlRegex two_pattern_provider
       (RegExpArray ([literal_then_digits false "example.com/album/";
                      literal_then_digits false "example.com/release/"]
                     ++ [literal_then_digits true "example.com/"])))
    release_1
  = Some "1".
Proof.
  apply (proj2 (appended_patterns_keep_support_and_identifier
                  two_pattern_provider
                  [literal_then_digits true "example.com/"]
                  release_1 eq_refl)).
  reflexivity.
Defined.

(** ** Redirect safety is a partial equivalence *)

Lemma extractId_Some_supported (this : CoverArtProvider) (url : URL) (id : string) :
  extractId this url = Some id -> supportsUrl this url = true.
Proof.
  intros E. apply extractId_patterns in E.
  destruct E as (b & regex & a & E & _ & Hy).
  apply supportsUrl_patterns. exists regex. split.
  - rewrite E. apply in_or_app. right. left. reflexivity.
  - exact (@yields_test regex (cleanUrl url) id Hy).
Qed.


(** X3. [isSafeRedirect] is symmetric: a redirect is safe in one direction
    exactly when it is safe in the other. *)
Theorem isSafeRedirect_symmetric :
  forall (this : CoverArtProvider) (a b : URL),
    isSafeRedirect this a b = isSafeRedirect this b a.
Proof.
  intros this a b. apply eq_true_iff_eq. rewrite !isSafeRedirect_true.
  split; intros (id & N & E1 & E2); exists id; auto.
Qed.

(** X4. [isSafeRedirect] is transitive: a chain of two safe redirects is a
    safe redirect from its first URL to its last. *)
Theorem isSafeRedirect_transitive :
  forall (this : CoverArtProvider) (a b c : URL),
    isSafeRedirect this a b = true ->
    isSafeRedirect this b c = true ->
    isSafeRedirect this a c = true.
Proof.
  intros this a b c Hab Hbc. apply isSafeRedirect_true in Hab, Hbc.
  destruct Hab as (id & N & Ea & Eb). destruct Hbc as (id' & _ & Eb' & Ec).
  apply isSafeRedirect_true. exists id. repeat split; try assumption. congruence.
Qed.

Lemma isSafeRedirect_transitive_witness :
  isSafeRedirect example_provider release_1_tracked release_1_tracked = true.
Proof.
  apply (isSafeRedirect_transitive example_provider
           release_1_tracked release_1 release_1_tracked);
    reflexivity.
Defined.

(** X5. Both ends of a safe redirect are URLs that the provider supports,
    and each of them is a safe redirect of itself: a redirect to a URL
    outside the provider's patterns is never safe. *)
Theorem isSafeRedirect_ends_supported :
  forall (this : CoverArtProvider) (a b : URL),
    isSafeRedirect this a b = true ->
    supportsUrl this a = true /\ supportsUrl this b = true
    /\ isSafeRedirect this a a = true /\ isSafeRedirect this b b = true.
Proof.
  intros this a b H. apply isSafeRedirect_true in H.
  destruct H as (id & N & Ea & Eb).
  split; [exact (@extractId_Some_supported this a id Ea)|].
  split; [exact (@extractId_Some_supported this b id Eb)|].
  split; apply isSafeRedirect_true; exists id; auto.
Qed.

Lemma isSafeRedirect_ends_supported_witness :
  supportsUrl example_provider release_1_tracked = true
  /\ isSafeRedirect example_provider release_1_tracked release_1_tracked = true.
Proof.
  destruct (isSafeRedirect_ends_supported example_provider
              release_1 release_1_tracked eq_refl) as (_ & S & _ & R).
  split; [exact S | exact R].
Defined.

(** ** What the redirect guard lets through *)

(** X6. Whatever [fetchPage] returns is the body of the response of the
    HTTP helper, and the response either was not redirected or was
    redirected safely: content behind an unsafe redirect is never
    returned. *)
Theorem fetchPage_returns_only_guarded_content :
  forall (P : Platform) (this : CoverArtProvider) (url : URL) (page : string),
    fetchPage this url = inr page ->
    exists resp,
      gmxhr url = inr resp
      /\ page = responseText resp
      /\ (finalUrl resp = href url
          \/ exists final, URL_parse (finalUrl resp) = Some final
                           /\ isSafeRedirect this url final = true).
Proof.
  intros P this url page. unfold fetchPage, new_URL.
  destruct (gmxhr url) as [e|resp]; simpl; [discriminate|].
  destruct (String.eqb_spec (finalUrl resp) (href url)) as [E|N]; simpl.
  - intros R. injection R as <-. exists resp.
    split; [reflexivity|]. split; [reflexivity|]. left. exact E.
  - destruct (URL_parse (finalUrl resp)) as [final|] eqn:Pf; simpl; [|discriminate].
    destruct (isSafeRedirect this url final) eqn:S; simpl; [|discriminate].
    intros R. injection R as <-. exists resp. split; [reflexivity|].
    split; [reflexivity|]. right. exists final. split; [exact Pf | exact S].
Qed.

Lemma fetchPage_returns_only_guarded_content_witness :
  exists resp,
    @gmxhr (platform (serving page_without_cover)) release_1 = inr resp
    /\ page_without_cover = responseText resp
    /\ (finalUrl resp = href release_1
        \/ exists final,
             @URL_parse (platform (serving page_without_cover)) (finalUrl resp)
             = Some final
             /\ isSafeRedirect example_provider release_1 final = true).
Proof.
  apply (fetchPage_returns_only_guarded_content
           (platform (serving page_without_cover)) example_provider release_1).
  reflexivity.
Defined.

(** X7. [fetchPage] fails in exactly three ways: the HTTP helper failed,
    and its failure is passed on as it is; or the response was redirected
    to a final URL that is not a valid URL, and the URL constructor throws;
    or it was redirected unsafely, and the refusal is thrown. *)
Theorem fetchPage_failures :
  forall (P : Platform) (this : CoverArtProvider) (url : URL) (e : Exn),
    fetchPage this url = inl e
    <-> gmxhr url = inl e
        \/ exists resp,
             gmxhr url = inr resp
             /\ finalUrl resp <> href url
             /\ ((URL_parse (finalUrl resp) = None
                  /\ e = TypeError (finalUrl resp))
                 \/ (exists final,
                        URL_parse (finalUrl resp) = Some final
                        /\ isSafeRedirect this url final = false
                        /\ e = Error (unsafe_redirect_message this resp))).
Proof.
  intros P this url e. unfold fetchPage, new_URL.
  destruct (gmxhr url) as [e'|resp]; simpl.
  - split; [intros E; injection E as ->; left; reflexivity|].
    intros [E|(resp & E & _)]; [injection E as ->; reflexivity | discriminate].
  - destruct (String.eqb_spec (finalUrl resp) (href url)) as [Eq|N]; simpl.
    + split; [discriminate|].
      intros [E|(resp' & E & N & _)]; [discriminate|].
      injection E as <-. contradiction.
    + destruct (URL_parse (finalUrl resp)) as [final|] eqn:Pf; simpl.
      * destruct (isSafeRedirect this url final) eqn:S; simpl.
        -- split; [discriminate|].
           intros [E|(resp' & E & _ & [[Pn _]|(final' & Pf' & S' & _)])];
             try discriminate; injection E as <-; congruence.
        -- split.
           ++ intros E. injection E as <-. right. exists resp.
              split; [reflexivity|]. split; [exact N|]. right. exists final. auto.
           ++ intros [E|(resp' & E & _ & [[Pn _]|(final' & _ & _ & ->)])];
                try discriminate; injection E as <-; [congruence | reflexivity].
      * split.
        -- intros E. injection E as <-. right. exists resp.
           split; [reflexivity|]. split; [exact N|]. left. auto.
        -- intros [E|(resp' & E & _ & [[_ ->]|(final' & Pf' & _)])];
             try discriminate; injection E as <-; [reflexivity | congruence].
Qed.

(** X8. A URL without an identifier, or with the empty one, cannot be
    redirected: whenever the final URL differs from the requested URL,
    [fetchPage] fails, whatever the final URL is. *)
Theorem fetchPage_refuses_redirect_without_identifier :
  forall (P : Platform) (this : CoverArtProvider) (url : URL) (resp : XhrResponse),
    gmxhr url = inr resp ->
    finalUrl resp <> href url ->
    truthy (extractId this url) = false ->
    fetchPage this url = inl (TypeError (finalUrl resp))
    \/ fetchPage this url = inl (Error (unsafe_redirect_message this resp)).
Proof.
  intros P this url resp F N T.
  destruct (URL_parse (finalUrl resp)) as [final|] eqn:Pf.
  - right. rewrite (@fetchPage_redirected P this url resp F final N Pf).
    unfold isSafeRedirect. rewrite T. reflexivity.
  - left. exact (@fetchPage_invalid_final_url P this url resp F N Pf).
Qed.

Lemma fetchPage_refuses_redirect_without_identifier_witness :
  @fetchPage (platform (answering "https://example.com/release/" "<html></html>"))
     lenient_provider
     (mkURL "https://example.com/release" "https:" "example.com" "/release/"
            EmptyString EmptyString)
  = inl (Error (unsafe_redirect_message lenient_provider
                  (mkResponse "https://example.com/release/" "<html></html>"))).
Proof.
  destruct (fetchPage_refuses_redirect_without_identifier
              (platform (answering "https://example.com/release/" "<html></html>"))
              lenient_provider
              (mkURL "https://example.com/release" "https:" "example.com" "/release/"
                     EmptyString EmptyString)
              eq_refl ltac:(discriminate) eq_refl) as [E|E].
  - discriminate E.
  - exact E.
Defined.

(** X9. A redirect that keeps the host and the path of the requested URL
    (another scheme, query string or fragment) is followed whenever the
    requested URL has a non-empty identifier: [fetchPage] returns the
    body. *)
Theorem fetchPage_follows_redirect_keeping_host_and_path :
  forall (P : Platform) (this : CoverArtProvider) (url final : URL)
         (resp : XhrResponse) (id : string),
    gmxhr url = inr resp ->
    URL_parse (finalUrl resp) = Some final ->
    host final = host url -> pathname final = pathname url ->
    extractId this url = Some id -> id <> EmptyString ->
    fetchPage this url = inr (responseText resp).
Proof.
  intros P this url final resp id F Pf Hh Hp E N.
  apply (@fetchPage_safe P this url resp F). right. exists final.
  split; [exact Pf|]. apply isSafeRedirect_true. exists id.
  split; [exact N|]. split; [exact E|].
  unfold extractId in *. unfold cleanUrl in *. rewrite Hh, Hp. exact E.
Qed.

Lemma fetchPage_follows_redirect_keeping_host_and_path_witness :
  @fetchPage (platform (answering "http://example.com/release/1?utm=x#top" "<html></html>"))
     example_provider release_1
  = inr "<html></html>".
Proof.
  apply (fetchPage_follows_redirect_keeping_host_and_path
           (platform (answering "http://example.com/release/1?utm=x#top" "<html></html>"))
           example_provider release_1 (final := release_1_tracked) (id := "1")
           eq_refl eq_refl eq_refl eq_refl eq_refl).
  discriminate.
Defined.

(** ** More on track image merging *)

Lemma distinct_length (l : list string) : List.length (distinct l) <= List.length l.
Proof.
  induction l as [|x l IH]; simpl; [lia|].
  pose proof (filter_length_le (fun y => negb (y =? x)) (distinct l)). lia.
Qed.

Lemma filterNonNull_length (A : Type) (array : list (option A)) :
  List.length (filterNonNull array) <= List.length array.
Proof.
  induction array as [|[x|] array IH]; simpl; lia.
Qed.

(** X10. [mergeTrackImages] returns as many candidates as there are
    distinct image URLs among the kept entries, hence never more
    candidates than entries. *)
Theorem mergeTrackImages_count :
  forall (P : Platform) (trackImages : list (option ParsedTrackImage))
         (mainUrl : string) (candidates : list CoverArt),
    mergeTrackImages trackImages mainUrl = inr candidates ->
    List.length candidates
    = List.length (distinct (map ti_url (kept_entries trackImages mainUrl)))
    /\ List.length candidates <= List.length trackImages.
Proof.
  intros P trackImages mainUrl candidates E.
  apply mergeTrackImages_inr in E. unfold merged_candidates in E.
  apply Forall2_length in E. split; [symmetry; exact E|].
  rewrite <- E.
  pose proof (distinct_length (map ti_url (kept_entries trackImages mainUrl))) as L1.
  rewrite length_map in L1. unfold kept_entries in L1 at 2.
  pose proof (filter_length_le (fun img => negb (ti_url img =? mainUrl))
                (filterNonNull trackImages)) as L2.
  pose proof (filterNonNull_length trackImages) as L3. lia.
Qed.

Lemma mergeTrackImages_count_witness :
  exists candidates,
    @mergeTrackImages offline track_images main_image = inr candidates
    /\ List.length candidates
       = List.length (distinct (map ti_url (kept_entries track_images main_image)))
    /\ List.length candidates <= List.length track_images.
Proof.
  eexists. split; [reflexivity|].
  apply (@mergeTrackImages_count offline track_images main_image).
  reflexivity.
Defined.

Lemma forEach_first_invalid (P : Platform) (f : string -> list (option string))
  (keys : list string) (results : list CoverArt) :
  match List.find (fun k => negb (is_defined (URL_parse k))) keys with
  | Some invalid =>
      Map_forEach_push track_image_result (tabulate f keys) results
      = inl (TypeError invalid)
  | None =>
      exists res,
        Map_forEach_push track_image_result (tabulate f keys) results = inr res
  end.
Proof.
  revert results. induction keys as [|k keys IH]; intros results; simpl.
  - exists results. reflexivity.
  - destruct (URL_parse k) as [u|] eqn:Pk; simpl.
    + assert (track_image_result (f k) k
              = inr {| ca_url := u;
                       ca_types := Some [Track];
                       ca_comment := createTrackImageComment (f k);
                       ca_skipMaximisation := None |}) as R
          by (unfold track_image_result, new_URL; rewrite Pk; reflexivity).
      rewrite R. simpl. apply IH.
    + unfold track_image_result, new_URL. rewrite Pk. reflexivity.
Qed.

(** X11. [mergeTrackImages] fails exactly when some kept image URL is not
    a valid URL, and then with the [TypeError] of the first such URL in the
    order of first occurrence; otherwise it returns candidates. *)
Theorem mergeTrackImages_first_invalid_url :
  forall (P : Platform) (trackImages : list (option ParsedTrackImage))
         (mainUrl : string),
    match List.find (fun k => negb (is_defined (URL_parse k)))
            (distinct (map ti_url (kept_entries trackImages mainUrl))) with
    | Some invalid =>
        mergeTrackImages trackImages mainUrl = inl (TypeError invalid)
    | None =>
        exists candidates, mergeTrackImages trackImages mainUrl = inr candidates
    end.
Proof.
  intros P trackImages mainUrl. rewrite mergeTrackImages_tabulate.
  apply forEach_first_invalid.
Qed.

Lemma is_infix_refl (s : string) : is_infix s s = true.
Proof.
  apply is_infix_prefix. destruct s as [|c s]; [reflexivity|].
  pose proof (prefix_append (String c s) EmptyString) as Pf.
  replace (String c s ++ EmptyString) with (String c s) in Pf; [exact Pf|].
  clear Pf. generalize (String c s). intros t.
  induction t as [|d t IH]; simpl; [reflexivity | rewrite <- IH; reflexivity].
Qed.

Lemma is_infix_concat (sep n : string) (l : list string) :
  In n l -> is_infix n (String.concat sep l) = true.
Proof.
  induction l as [|x l IH]; simpl; [contradiction|].
  destruct l as [|y l].
  - intros [->|[]]. apply is_infix_refl.
  - intros [->|I].
    + apply is_infix_prefix, prefix_append.
    + do 2 apply is_infix_skip. apply IH, I.
Qed.

Lemma specified_comment_mentions (nums : list string) (n : string) :
  In n nums ->
  exists comment, specified_comment nums = Some comment
                  /\ is_infix n comment = true.
Proof.
  intros I. destruct nums as [|a [|b rest]]; [contradiction| |].
  - destruct I as [->|[]]. exists ("Track " ++ n). split; [reflexivity|].
    apply is_infix_skip, is_infix_refl.
  - exists ("Tracks " ++ String.concat ", " (a :: b :: rest)).
    split; [reflexivity|]. apply is_infix_skip, is_infix_concat, I.
Qed.

(** X12. No known track number is lost: for every kept entry with a track
    number, the candidate returned for the entry's image URL has a comment
    and the track number occurs in it. *)
Theorem mergeTrackImages_comment_mentions_track_number :
  forall (P : Platform) (trackImages : list (option ParsedTrackImage))
         (mainUrl : string) (candidates : list CoverArt)
         (img : ParsedTrackImage) (n : string),
    mergeTrackImages trackImages mainUrl = inr candidates ->
    In (Some img) trackImages ->
    ti_url img <> mainUrl ->
    ti_trackNumber img = Some n ->
    exists candidate comment,
      In candidate candidates
      /\ URL_parse (ti_url img) = Some (ca_url candidate)
      /\ ca_comment candidate = Some comment
      /\ is_infix n comment = true.
Proof.
  intros P trackImages mainUrl candidates img n E I N T.
  apply mergeTrackImages_inr in E. unfold merged_candidates in E.
  assert (In img (kept_entries trackImages mainUrl)) as K
      by (apply kept_entries_In; auto).
  assert (In (ti_url img)
             (distinct (map ti_url (kept_entries trackImages mainUrl)))) as D
      by (apply distinct_In, in_map, K).
  destruct (@Forall2_In_l _ _ _ _ _ _ E D) as (c & Ic & U & _ & C & _).
  destruct (@specified_comment_mentions
              (known_track_numbers (ti_url img) (kept_entries trackImages mainUrl)) n)
    as (comment & Ec & Inf).
  { unfold known_track_numbers. apply In_filterNonNull. rewrite <- T.
    apply in_map, filter_In. split; [exact K | apply String.eqb_refl]. }
  exists c, comment. rewrite C. auto.
Qed.

Lemma mergeTrackImages_comment_mentions_track_number_witness :
  exists candidate comment,
    @URL_parse offline "https://a.example/1.jpg" = Some (ca_url candidate)
    /\ ca_comment candidate = Some comment
    /\ is_infix "2" comment = true.
Proof.
  destruct (@mergeTrackImages_comment_mentions_track_number offline track_images
              main_image _
              {| ti_url := "https://a.example/1.jpg"; ti_trackNumber := Some "2" |}
              "2" eq_refl)
    as (candidate & comment & _ & W).
  - simpl. auto.
  - discriminate.
  - reflexivity.
  - exists candidate, comment. exact W.
Defined.

(** *** Merging inputs that share no image URL *)

Lemma filterNonNull_app (A : Type) (l1 l2 : list (option A)) :
  filterNonNull (l1 ++ l2) = (filterNonNull l1 ++ filterNonNull l2)%list.
Proof.
  induction l1 as [|[x|] l1 IH]; simpl; [reflexivity | rewrite IH; reflexivity | exact IH].
Qed.

Lemma kept_entries_app (l1 l2 : list (option ParsedTrackImage)) (mainUrl : string) :
  kept_entries (l1 ++ l2) mainUrl
  = (kept_entries l1 mainUrl ++ kept_entries l2 mainUrl)%list.
Proof.
  unfold kept_entries. rewrite filterNonNull_app, filter_app. reflexivity.
Qed.

Lemma filter_keeps_all (A : Type) (p : A -> bool) (l : list A) :
  (forall x, In x l -> p x = true) -> filter p l = l.
Proof.
  induction l as [|x l IH]; simpl; intros H; [reflexivity|].
  rewrite (H x (or_introl eq_refl)), IH; [reflexivity|].
  intros y I. apply H. right. exact I.
Qed.

Lemma distinct_app_disjoint (l1 l2 : list string) :
  (forall x, In x l1 -> ~ In x l2) ->
  distinct (l1 ++ l2) = (distinct l1 ++ distinct l2)%list.
Proof.
  induction l1 as [|x l1 IH]; simpl; intros D; [reflexivity|].
  rewrite IH by (intros y I; apply D; right; exact I).
  rewrite filter_app. f_equal. f_equal.
  apply filter_keeps_all. intros y I. apply negb_true_iff, String.eqb_neq.
  intros ->. apply (proj1 (distinct_In _ _)) in I. exact (D x (or_introl eq_refl) I).
Qed.

Lemma grouped_values_app (T V : Type) (keyFn : T -> string) (valTransform : T -> V)
  (l1 l2 : list T) (k : string) :
  grouped_values keyFn valTransform (l1 ++ l2) k
  = (grouped_values keyFn valTransform l1 k
     ++ grouped_values keyFn valTransform l2 k)%list.
Proof.
  unfold grouped_values. rewrite filter_app, map_app. reflexivity.
Qed.

Lemma Map_forEach_push_app (V R : Type) (callback : V -> string -> Result R)
  (m1 m2 : JsMap V) (results : list R) :
  Map_forEach_push callback (m1 ++ m2)%list results
  = (res <- Map_forEach_push callback m1 results ;;
     Map_forEach_push callback m2 res).
Proof.
  revert results. induction m1 as [|[k v] m1 IH]; intros results; simpl;
    [reflexivity|].
  destruct (callback v k) as [e|r]; simpl; [reflexivity | apply IH].
Qed.

Lemma Map_forEach_push_from (V R : Type) (callback : V -> string -> Result R)
  (m : JsMap V) (results : list R) :
  Map_forEach_push callback m results
  = (pushed <- Map_forEach_push callback m [] ;; ret (results ++ pushed)%list).
Proof.
  revert results. induction m as [|[k v] m IH]; intros results; simpl.
  - unfold ret. rewrite app_nil_r. reflexivity.
  - destruct (callback v k) as [e|r]; simpl; [reflexivity|].
    rewrite (IH (results ++ [r])%list), (IH [r]).
    destruct (Map_forEach_push callback m []) as [e|pushed]; simpl; [reflexivity|].
    unfold ret. rewrite <- app_assoc. reflexivity.
Qed.

(** X13. Merging composes over inputs that share no image URL: when no
    kept entry of the first list has the image URL of a kept entry of the
    second, merging their concatenation gives the candidates of the first
    followed by those of the second, and fails as the first of the two
    merges that fails. *)
Theorem mergeTrackImages_app_disjoint :
  forall (P : Platform) (first second : list (option ParsedTrackImage))
         (mainUrl : string),
    (forall a b,
        In a (kept_entries first mainUrl) ->
        In b (kept_entries second mainUrl) ->
        ti_url a <> ti_url b) ->
    mergeTrackImages (first ++ second) mainUrl
    = (candidates1 <- mergeTrackImages first mainUrl ;;
       candidates2 <- mergeTrackImages second mainUrl ;;
       ret (candidates1 ++ candidates2)%list).
Proof.
  intros P first second mainUrl D.
  rewrite !mergeTrackImages_tabulate, kept_entries_app, map_app.
  set (A := kept_entries first mainUrl) in *.
  set (B := kept_entries second mainUrl) in *.
  assert (forall x, In x (map ti_url A) -> ~ In x (map ti_url B)) as D'.
  { intros x Ia Ib. apply in_map_iff in Ia, Ib.
    destruct Ia as (a & <- & Ia). destruct Ib as (b & Eb & Ib).
    exact (D a b Ia Ib (eq_sym Eb)). }
  rewrite (distinct_app_disjoint _ _ D'). unfold tabulate at 1. rewrite map_app.
  replace (map (fun k => (k, grouped_values ti_url ti_trackNumber (A ++ B) k))
             (distinct (map ti_url A)))
    with (tabulate (grouped_values ti_url ti_trackNumber A) (distinct (map ti_url A))).
  2: { apply map_ext_in. intros k I. rewrite grouped_values_app.
       rewrite (@grouped_values_absent _ _ ti_url ti_trackNumber B k).
       - rewrite app_nil_r. reflexivity.
       - apply D'. exact (proj1 (distinct_In _ _) I). }
  replace (map (fun k => (k, grouped_values ti_url ti_trackNumber (A ++ B) k))
             (distinct (map ti_url B)))
    with (tabulate (grouped_values ti_url ti_trackNumber B) (distinct (map ti_url B))).
  2: { apply map_ext_in. intros k I. rewrite grouped_values_app.
       rewrite (@grouped_values_absent _ _ ti_url ti_trackNumber A k).
       - reflexivity.
       - intros Ia. apply (proj1 (distinct_In _ _)) in I. exact (D' k Ia I). }
  rewrite Map_forEach_push_app.
  destruct (Map_forEach_push track_image_result
              (tabulate (grouped_values ti_url ti_trackNumber A)
                 (distinct (map ti_url A))) []) as [e|c1]; simpl; [reflexivity|].
  apply Map_forEach_push_from.
Qed.

Lemma mergeTrackImages_app_disjoint_witness :
  @mergeTrackImages offline
     ([Some {| ti_url := "https://a.example/1.jpg"; ti_trackNumber := Some "1" |}]
      ++ [Some {| ti_url := "https://b.example/1.jpg"; ti_trackNumber := None |}])
     main_image
  = (candidates1 <- @mergeTrackImages offline
                      [Some {| ti_url := "https://a.example/1.jpg";
                               ti_trackNumber := Some "1" |}] main_image ;;
     candidates2 <- @mergeTrackImages offline
                      [Some {| ti_url := "https://b.example/1.jpg";
                               ti_trackNumber := None |}] main_image ;;
     ret (candidates1 ++ candidates2)%list).
Proof.
  apply (@mergeTrackImages_app_disjoint offline).
  intros a b [<-|[]] [<-|[]]. discriminate.
Defined.

(** X14. The comment of a candidate is absent exactly when none of its
    track numbers is defined; undefined track numbers count for nothing, so
    that one defined number among undefined ones still gives the singular
    form. *)
Theorem createTrackImageComment_undefined_numbers :
  forall (trackNumbers : list (option string)),
    (createTrackImageComment trackNumbers = None
     <-> forall n, ~ In (Some n) trackNumbers)
    /\ createTrackImageComment trackNumbers
       = createTrackImageComment (map Some (filterNonNull trackNumbers))
    /\ (forall n, filterNonNull trackNumbers = [n] ->
                  createTrackImageComment trackNumbers = Some ("Track " ++ n)).
Proof.
  intros trackNumbers. split; [|split].
  - rewrite createTrackImageComment_specified. split.
    + intros E n I. apply In_filterNonNull in I.
      destruct (filterNonNull trackNumbers) as [|a [|b rest]];
        [contradiction | discriminate | discriminate].
    + intros H. destruct (filterNonNull trackNumbers) as [|a rest] eqn:F;
        [reflexivity|].
      exfalso. apply (H a), In_filterNonNull. rewrite F. left. reflexivity.
  - rewrite !createTrackImageComment_specified, filterNonNull_map_Some. reflexivity.
  - intros n F. rewrite createTrackImageComment_specified, F. reflexivity.
Qed.

Lemma createTrackImageComment_undefined_numbers_witness :
  createTrackImageComment [None; Some "4"; None] = Some "Track 4".
Proof.
  apply (proj2 (proj2 (createTrackImageComment_undefined_numbers
                         [None; Some "4"; None])) "4").
  reflexivity.
Defined.

(** ** More on the og:image provider *)

(** X15. Whatever [findImages] returns is a single front candidate without
    comment, made from the content of the og:image element of a page that
    came through the redirect guard: there is never a second candidate, and
    never one from a page that [fetchPage] refused. *)
Theorem findImages_returns_one_guarded_front_candidate :
  forall (P : Platform) (this : CoverArtProvider) (url : URL)
         (candidates : list CoverArt),
    findImages this url = inr candidates ->
    exists page coverElmt coverUrl,
      fetchPage this url = inr page
      /\ qsMaybe og_image_selector (parseDOM page (href url)) = Some coverElmt
      /\ URL_parse (content coverElmt) = Some coverUrl
      /\ candidates = [ {| ca_url := coverUrl;
                           ca_types := Some [Front];
                           ca_comment := None;
                           ca_skipMaximisation := None |} ].
Proof.
  intros P this url candidates E.
  destruct (fetchPage this url) as [e|page] eqn:F.
  - rewrite (@findImages_not_fetched P this url e F) in E. discriminate E.
  - rewrite (@findImages_fetched P this url page F) in E.
    destruct (qsMaybe og_image_selector (parseDOM page (href url)))
      as [elmt|] eqn:Q; [|discriminate E].
    destruct (URL_parse (content elmt)) as [coverUrl|] eqn:U; [|discriminate E].
    injection E as <-. exists page, elmt, coverUrl. auto.
Qed.

Lemma findImages_returns_one_guarded_front_candidate_witness :
  exists page coverElmt coverUrl,
    @fetchPage (platform (serving (page_with_cover "https://cdn.example/cover.jpg")))
       example_provider release_1 = inr page
    /\ scrape og_image_selector page = Some coverElmt
    /\ parse_url (content coverElmt) = Some coverUrl
    /\ href coverUrl = "https://cdn.example/cover.jpg".
Proof.
  destruct (@findImages_returns_one_guarded_front_candidate
              (platform (serving (page_with_cover "https://cdn.example/cover.jpg")))
              example_provider release_1 _ eq_refl)
    as (page & elmt & coverUrl & F & Q & U & C).
  exists page, elmt, coverUrl. split; [exact F|]. split; [exact Q|].
  split; [exact U|]. injection C as <-. reflexivity.
Defined.

(** X16. A failure of the fetch is the failure of [findImages], unchanged,
    whatever the page holds: the failure of the HTTP helper, and the
    refusal of an unsafe redirect. *)
Theorem findImages_passes_fetch_failures_on :
  forall (P : Platform) (this : CoverArtProvider) (url : URL),
    (forall e, gmxhr url = inl e -> findImages this url = inl e)
    /\ (forall resp final,
           gmxhr url = inr resp ->
           finalUrl resp <> href url ->
           URL_parse (finalUrl resp) = Some final ->
           isSafeRedirect this url final = false ->
           findImages this url = inl (Error (unsafe_redirect_message this resp))).
Proof.
  intros P this url. split.
  - intros e G. apply findImages_not_fetched. unfold fetchPage. rewrite G. reflexivity.
  - intros resp final G N Pf U. apply findImages_not_fetched.
    rewrite (@fetchPage_redirected P this url resp G final N Pf), U. reflexivity.
Qed.

Lemma findImages_passes_fetch_failures_on_witness :
  @findImages
     (platform (answering "https://example.com/release/2"
                  (page_with_cover "https://cdn.example/cover.jpg")))
     example_provider release_1
  = inl (Error (unsafe_redirect_message example_provider
                  (mkResponse "https://example.com/release/2"
                     (page_with_cover "https://cdn.example/cover.jpg")))).
Proof.
  apply (proj2 (findImages_passes_fetch_failures_on
                  (platform (answering "https://example.com/release/2"
                               (page_with_cover "https://cdn.example/cover.jpg")))
                  example_provider release_1)
           _ release_2 eq_refl);
    [discriminate | reflexivity | reflexivity].
Defined.

(** ** The artwork type identifiers *)

(** X17. The numeric identifiers of the artwork types are pairwise
    distinct and are exactly the numbers from 1 to 14: a type is recovered
    from its identifier, and every number in that range is the identifier
    of a type. *)
Theorem ArtworkTypeIDs_value_one_to_one :
  (forall a b, ArtworkTypeIDs_value a = ArtworkTypeIDs_value b -> a = b)
  /\ (forall n, (exists t, ArtworkTypeIDs_value t = n) <-> 1 <= n <= 14).
Proof.
  split.
  - intros a b. destruct a, b; simpl; intros E; try reflexivity; discriminate E.
  - intros n. split.
    + intros (t & <-). destruct t; simpl; lia.
    + intros [L U].
      do 15 (destruct n as [|n]; [first [lia
        | exists Front; reflexivity | exists Back; reflexivity
        | exists Booklet; reflexivity | exists Medium; reflexivity
        | exists Obi; reflexivity | exists Spine; reflexivity
        | exists Track; reflexivity | exists Other; reflexivity
        | exists Tray; reflexivity | exists Sticker; reflexivity
        | exists Poster; reflexivity | exists Liner; reflexivity
        | exists Watermark; reflexivity | exists Raw; reflexivity]|]).
      lia.
Qed.
